(** * Quantum route optimisation and Ising notebooks: ansatz builder and
      variational loop driver

    A shallow embedding of the locally written code of the two notebooks:

    - [Solution_1-QuantumRouteOptimisation]: [base_circuit], [W_circuit], the
      ansatz construction loops, [cost_func] and its [cost_history_dict];
    - the 2-qubit Ising notebook: [Hamiltonian], the classical benchmark loop,
      [cost_fn], the loop over [b_list] that calls [minimize], the plot data.

    Python integers are [Z]; a notebook cell that mutates an object (the
    circuit under construction, the module-level dictionary) is a
    computation in a state-and-exception monad whose state survives a raised
    exception, as the mutated Python object does. *)

From Stdlib Require Import ZArith List Lia Bool Permutation QArith Lqa.
From Stdlib Require String.
Import String.StringSyntax.
Import ListNotations.
Delimit Scope string_scope with string.
Local Open Scope Z_scope.

(** ** Python primitives used by the notebooks *)
Module Py.

(** [range(a, b, 1)]: the integers [a, a+1, ..., b-1]; empty when [b <= a]. *)
Definition range (a b : Z) : list Z :=
  map (fun i => a + Z.of_nat i) (seq 0 (Z.to_nat (b - a))).

(** Indexing a Python sequence of length [size] by an integer: a
    non-negative index below [size] is itself, a negative index down to
    [-size] counts from the end, anything else raises [IndexError]
    ([None]). *)
Definition seq_index (size i : Z) : option Z :=
  if (0 <=? i) && (i <? size) then Some i
  else if (- size <=? i) && (i <? 0) then Some (size + i)
  else None.

(** [len(set(l)) < len(l)] on integers: some element occurs twice. *)
Fixpoint has_dup (l : list Z) : bool :=
  match l with
  | [] => false
  | a :: r => existsb (Z.eqb a) r || has_dup r
  end.

End Py.

(** ** State with exceptions

    [M S E A]: a computation over a mutable state [S] that returns an [A] or
    raises an [E]; the state reached when the exception was raised is kept. *)
Module Eff.

Definition M (S E A : Type) : Type := S -> S * (E + A).

Definition ret {S E A} (a : A) : M S E A := fun s => (s, inr a).

Definition raise {S E A} (e : E) : M S E A := fun s => (s, inl e).

Definition bind {S E A B} (m : M S E A) (k : A -> M S E B) : M S E B :=
  fun s =>
    match m s with
    | (s', inr a) => k a s'
    | (s', inl e) => (s', inl e)
    end.

Definition modify {S E} (f : S -> S) : M S E unit := fun s => (f s, inr tt).

(** [for x in l: body(x)] *)
Fixpoint for_ {S E A} (l : list A) (body : A -> M S E unit) : M S E unit :=
  match l with
  | [] => ret tt
  | a :: r => bind (body a) (fun _ => for_ r body)
  end.

End Eff.

Declare Scope eff_scope.
Delimit Scope eff_scope with eff.
Notation "x <- c1 ;; c2" := (Eff.bind c1 (fun x => c2))
  (at level 61, c1 at next level, right associativity) : eff_scope.
Notation "c1 ;; c2" := (Eff.bind c1 (fun _ => c2))
  (at level 61, right associativity) : eff_scope.

(** ** The TSP ansatz builder (Solution_1-QuantumRouteOptimisation) *)
Module Ansatz.
Import Py Eff.
Local Open Scope eff_scope.

(** A rotation angle: an entry [theta[i]] of the parameter vector, or its
    negation [-theta[i]]. *)
Inductive pexpr : Type :=
| Param (i : Z)
| Neg (e : pexpr).

(** A gate operation appended to the circuit, with its resolved qubit
    operands. [MeasureAll] is the terminal [measure_all()] directive. *)
Inductive gate : Type :=
| X (q : Z)
| RY (theta : pexpr) (q : Z)
| CZ (c t : Z)
| CX (c t : Z)
| CSWAP (c t1 t2 : Z)
| MeasureAll.

(** [QuantumCircuit(num_qubits)]: the register size and the append-only
    gate list. *)
Record QuantumCircuit : Type := mkQC {
  num_qubits : Z;
  data : list gate
}.

(** [ParameterVector(name, length)]; only the length matters for indexing. *)
Record ParameterVector : Type := mkPV { pv_length : Z }.

Inductive exn : Type :=
| QubitIndexOutOfRange (q size : Z)   (* CircuitError: index out of range *)
| DuplicateQubits (qs : list Z)       (* CircuitError: duplicate qubit arguments *)
| ParamIndexError (i size : Z).       (* IndexError on theta[i] *)

Definition Build := M QuantumCircuit exn.

(** Resolution of an integer qubit operand against the register: the
    circuit indexes its list of qubits with it. *)
Definition qubit (q : Z) : Build Z :=
  fun qc =>
    match seq_index (num_qubits qc) q with
    | Some r => (qc, inr r)
    | None => (qc, inl (QubitIndexOutOfRange q (num_qubits qc)))
    end.

(** A gate on several qubits refuses a repeated operand. *)
Definition distinct (qs : list Z) : Build unit :=
  if has_dup qs then raise (DuplicateQubits qs) else ret tt.

Definition append (g : gate) : Build unit :=
  modify (fun qc => mkQC (num_qubits qc) (data qc ++ [g])).

(** [theta[i]] *)
Definition getitem (theta : ParameterVector) (i : Z) : Build pexpr :=
  match seq_index (pv_length theta) i with
  | Some r => ret (Param r)
  | None => raise (ParamIndexError i (pv_length theta))
  end.

(** [QC.x(q)], [QC.ry(theta, q)], [QC.cz(c, t)], [QC.cx(c, t)],
    [QC.cswap(c, t1, t2)], [QC.measure_all()] *)
Definition x (q : Z) : Build unit :=
  q' <- qubit q ;; append (X q').

Definition ry (theta : pexpr) (q : Z) : Build unit :=
  q' <- qubit q ;; append (RY theta q').

Definition cz (c t : Z) : Build unit :=
  c' <- qubit c ;; t' <- qubit t ;; distinct [c'; t'] ;; append (CZ c' t').

Definition cx (c t : Z) : Build unit :=
  c' <- qubit c ;; t' <- qubit t ;; distinct [c'; t'] ;; append (CX c' t').

Definition cswap (c t1 t2 : Z) : Build unit :=
  c' <- qubit c ;; t1' <- qubit t1 ;; t2' <- qubit t2 ;;
  distinct [c'; t1'; t2'] ;; append (CSWAP c' t1' t2').

Definition measure_all : Build unit := append MeasureAll.

(** [def base_circuit(QC, n, theta)]. The local
    [theta1 = ParameterVector('theta2', 1)] is created and never used. *)
Definition base_circuit (n : Z) (theta : ParameterVector) : Build unit :=
  x 0 ;;
  (t <- getitem theta 1 ;; ry t 1) ;;
  cz 0 1 ;;
  (t <- getitem theta 1 ;; ry (Neg t) 1) ;;
  cx 1 0 ;;
  cx 1 n ;;
  cx 0 (n + 1).

(** [def W_circuit(QC, n, q1n, theta)] *)
Definition W_circuit (n q1n : Z) (theta : ParameterVector) : Build unit :=
  x q1n ;;
  for_ (range (q1n + 1) (q1n + n)) (fun j =>
    (t <- getitem theta (j - 1) ;; ry t j) ;;
    cz (j - 1) j ;;
    (t <- getitem theta (j - 1) ;; ry (Neg t) j)) ;;
  for_ (range (q1n + 1) (q1n + n)) (fun j =>
    cx j (j - 1)).

(** The controlled-swap stage of the construction cell. *)
Definition swap_stage (n : Z) : Build unit :=
  for_ (range 3 (n + 1)) (fun k =>
    for_ (range 1 k) (fun v =>
      for_ (range 1 k) (fun p =>
        cswap (n * (k - 1) + v - 1)
              (n * (p - 1) + n - (n - k) - 1)
              (n * (p - 1) + v - 1)))).

(** The construction cell, run on [qc = QuantumCircuit(n ** 2)] with
    [phi = ParameterVector('phi', n ** 2)]. *)
Definition construct (n : Z) (phi : ParameterVector) : Build unit :=
  base_circuit n phi ;;
  for_ (range 3 (n + 1)) (fun i => W_circuit i (n * (i - 1)) phi) ;;
  swap_stage n ;;
  measure_all.

Definition ansatz (n : Z) : QuantumCircuit * (exn + unit) :=
  let num_qubits := n ^ 2 in
  construct n (mkPV num_qubits) (mkQC num_qubits []).

(** *** Observations on a gate list *)

Definition gate_qubits (nq : Z) (g : gate) : list Z :=
  match g with
  | X q => [q]
  | RY _ q => [q]
  | CZ c t => [c; t]
  | CX c t => [c; t]
  | CSWAP c a b => [c; a; b]
  | MeasureAll => range 0 nq
  end.

Fixpoint pexpr_index (e : pexpr) : Z :=
  match e with
  | Param i => i
  | Neg e' => pexpr_index e'
  end.

(** The parameter-vector indices referenced by a gate list, in order, one
    per reference. *)
Definition param_refs (gs : list gate) : list Z :=
  flat_map (fun g => match g with RY e _ => [pexpr_index e] | _ => [] end) gs.

(** The distinct free parameters of a gate list. *)
Definition parameters (gs : list gate) : list Z :=
  nodup Z.eq_dec (param_refs gs).

Definition is_cswap (g : gate) : bool :=
  match g with CSWAP _ _ _ => true | _ => false end.

Definition gate_eq_dec (g h : gate) : {g = h} + {g <> h}.
Proof. repeat decide equality. Defined.

(** *** The gate sequences, written out

    What each block appends when every operand is accepted; the theorems
    below relate them to the builder. *)

Definition base_gates (n : Z) : list gate :=
  [X 0; RY (Param 1) 1; CZ 0 1; RY (Neg (Param 1)) 1;
   CX 1 0; CX 1 n; CX 0 (n + 1)].

Definition W_gates (n q1n : Z) : list gate :=
  X q1n ::
  flat_map (fun j => [RY (Param (j - 1)) j; CZ (j - 1) j;
                      RY (Neg (Param (j - 1))) j])
           (range (q1n + 1) (q1n + n))
  ++ map (fun j => CX j (j - 1)) (range (q1n + 1) (q1n + n)).

Definition cswap_gate (n k v p : Z) : gate :=
  CSWAP (n * (k - 1) + v - 1)
        (n * (p - 1) + n - (n - k) - 1)
        (n * (p - 1) + v - 1).

Definition swap_gates (n : Z) : list gate :=
  flat_map (fun k =>
    flat_map (fun v =>
      map (fun p => cswap_gate n k v p) (range 1 k)) (range 1 k))
    (range 3 (n + 1)).

Definition ansatz_gates (n : Z) : list gate :=
  base_gates n
  ++ flat_map (fun i => W_gates i (n * (i - 1))) (range 3 (n + 1))
  ++ swap_gates n
  ++ [MeasureAll].

(** The parameter indices of the W blocks, each listed once. *)
Definition W_params (n : Z) : list Z :=
  flat_map (fun i => map (fun j => j - 1)
                         (range (n * (i - 1) + 1) (n * (i - 1) + i)))
           (range 3 (n + 1)).

(** The targets of the CNOT gates of a gate list, in order. *)
Definition cx_targets (gs : list gate) : list Z :=
  flat_map (fun g => match g with CX _ t => [t] | _ => [] end) gs.

Definition last_two {A} (l : list A) : list A :=
  skipn (length l - 2) l.

(** Outcomes of a construction. *)
Definition accepted (r : QuantumCircuit * (exn + unit)) : Prop :=
  snd r = inr tt.

Definition rejected_before_emission (r : QuantumCircuit * (exn + unit)) : Prop :=
  (exists e, snd r = inl e) /\ data (fst r) = [].

(** [emits nq m gs]: on a register of [nq] qubits, [m] raises nothing and
    appends exactly [gs]. *)
Definition emits (nq : Z) (m : Build unit) (gs : list gate) : Prop :=
  forall d, m (mkQC nq d) = (mkQC nq (d ++ gs), inr tt).

End Ansatz.

(** ** The variational loop driver (both notebooks)

    [cost_func] of the TSP notebook and [cost_fn] of the Ising notebook have
    the same body; the estimator primitive and [scipy.optimize.minimize]
    are external and enter as parameters. *)
Module Vqe.
Import Eff.
Local Open Scope eff_scope.

(** An [ndarray] of ansatz parameters. *)
Definition params : Type := list Q.

(** The float returned by the estimator: finite or one of the non-finite
    values. *)
Inductive energy : Type :=
| Finite (v : Q)
| PosInf
| NegInf
| NaN.

(** The module-level dictionary
    [{"prev_vector": None, "iters": 0, "cost_history": []}]. *)
Record CostHistoryDict : Type := mkDict {
  prev_vector : option params;
  iters : Z;
  cost_history : list energy
}.

Definition cost_history_dict_init : CostHistoryDict := mkDict None 0 [].

Section Driver.

(** The transpiled circuit, the observable handed to the estimator and the
    exception an estimator job raises are opaque to the notebook code. *)
Variables Circuit Observable EstimatorError : Type.

(** [pub = (ansatz, [hamiltonian], [params])] *)
Record Pub : Type := mkPub {
  pub_circuit : Circuit;
  pub_observables : list Observable;
  pub_parameter_values : list params
}.

(** The estimator primitive: what [estimator.run(pubs=[pub]).result()]
    yields for [partial_result[0].data.evs[0]], or the exception it raises,
    given the jobs submitted before (so that a noisy or stateful backend is
    covered). *)
Definition Estimator : Type := list Pub -> Pub -> EstimatorError + energy.

(** The globals of the notebook kernel that the modelled cells touch, with
    the jobs received by the estimator service and the lines printed. *)
Record Kernel : Type := mkKernel {
  cost_history_dict : CostHistoryDict;
  submitted : list Pub;
  stdout : list (Z * energy);
  ground_state_energies_simulator : list energy;
  ground_state_energies_hardware : list energy
}.

Definition kernel_init : Kernel := mkKernel cost_history_dict_init [] [] [] [].

Definition Run := M Kernel EstimatorError.

Definition set_dict (f : CostHistoryDict -> CostHistoryDict) : Run unit :=
  modify (fun k => mkKernel (f (cost_history_dict k)) (submitted k) (stdout k)
                            (ground_state_energies_simulator k)
                            (ground_state_energies_hardware k)).

(** [estimator.run(pubs=[pub]).result()[0].data.evs[0]]: one job is
    submitted; its failure is raised, its value returned. *)
Definition estimator_run (estimator : Estimator) (pub : Pub) : Run energy :=
  fun k =>
    (mkKernel (cost_history_dict k) (submitted k ++ [pub]) (stdout k)
              (ground_state_energies_simulator k)
              (ground_state_energies_hardware k),
     estimator (submitted k) pub).

(** [print(f"Iters. done: {cost_history_dict['iters']} [Current cost: {energy}]")] *)
Definition print_progress (e : energy) : Run unit :=
  modify (fun k => mkKernel (cost_history_dict k) (submitted k)
                            (stdout k ++ [(iters (cost_history_dict k), e)])
                            (ground_state_energies_simulator k)
                            (ground_state_energies_hardware k)).

(** [def cost_fn(params, ansatz, hamiltonian, estimator)] *)
Definition cost_fn (x : params) (ansatz : Circuit) (hamiltonian : Observable)
    (estimator : Estimator) : Run energy :=
  let pub := mkPub ansatz [hamiltonian] [x] in
  energy <- estimator_run estimator pub ;;
  set_dict (fun d => mkDict (prev_vector d) (iters d + 1) (cost_history d)) ;;
  set_dict (fun d => mkDict (Some x) (iters d) (cost_history d)) ;;
  set_dict (fun d => mkDict (prev_vector d) (iters d) (cost_history d ++ [energy])) ;;
  print_progress energy ;;
  ret energy.

(** [def cost_func(params, ansatz, hamiltonian, estimator)] of the TSP
    notebook: the same statements. *)
Definition cost_func := cost_fn.

(** [k] successive evaluation calls, at the points [xs]. *)
Fixpoint evaluate_all (xs : list params) (ansatz : Circuit)
    (hamiltonian : Observable) (estimator : Estimator) : Run (list energy) :=
  match xs with
  | [] => ret []
  | x :: r =>
      e <- cost_fn x ansatz hamiltonian estimator ;;
      es <- evaluate_all r ansatz hamiltonian estimator ;;
      ret (e :: es)
  end.

(** The derivative-free minimizer ([method="COBYLA"]): from the
    evaluations made so far it proposes the next point or stops, and
    reports [res.x] and [res.fun]. *)
Record Minimizer : Type := mkMinimizer {
  propose : list (params * energy) -> option params;
  report : list (params * energy) -> params * energy
}.

Fixpoint iterate (fuel : nat) (mz : Minimizer) (f : params -> Run energy)
    (evals : list (params * energy)) (x : params)
    : Run (list (params * energy)) :=
  e <- f x ;;
  let evals' := evals ++ [(x, e)] in
  match fuel with
  | O => ret evals'
  | S fuel' =>
      match propose mz evals' with
      | None => ret evals'
      | Some x' => iterate fuel' mz f evals' x'
      end
  end.

(** [minimize(fun, x0, args=..., method="COBYLA", tol=..., options={'maxiter': m})]:
    the objective is evaluated at [x0] and then at most [m - 1] more times;
    an exception raised by the objective is not caught. *)
Definition minimize (mz : Minimizer) (f : params -> Run energy) (x0 : params)
    (maxiter : Z) : Run (params * energy) :=
  evals <- iterate (Z.to_nat (maxiter - 1)) mz f [] x0 ;;
  ret (report mz evals).

(** The optimisation cell of the TSP notebook: one call of [minimize]. *)
Definition tsp_run (mz : Minimizer) (isa_ansatz : Circuit)
    (hamiltonian_isa : Observable) (estimator : Estimator) (x0 : params)
    : Run (params * energy) :=
  minimize mz (fun x => cost_func x isa_ansatz hamiltonian_isa estimator) x0 200.

(** The responses of the estimator to the jobs [todo] submitted after
    [seen]. *)
Fixpoint responses (estimator : Estimator) (seen todo : list Pub)
    : list (EstimatorError + energy) :=
  match todo with
  | [] => []
  | p :: r => estimator seen p :: responses estimator (seen ++ [p]) r
  end.

Fixpoint returned (rs : list (EstimatorError + energy)) : list energy :=
  match rs with
  | [] => []
  | inr e :: r => e :: returned r
  | inl _ :: r => returned r
  end.

(** The history holds exactly the values the estimator returned, in the
    order of the jobs, and the counter is their number. *)
Definition trace_faithful (estimator : Estimator) (k : Kernel) : Prop :=
  cost_history (cost_history_dict k)
    = returned (responses estimator [] (submitted k)) /\
  iters (cost_history_dict k)
    = Z.of_nat (length (cost_history (cost_history_dict k))).

End Driver.

Arguments mkPub {Circuit Observable}.
Arguments pub_circuit {Circuit Observable}.
Arguments pub_observables {Circuit Observable}.
Arguments pub_parameter_values {Circuit Observable}.
Arguments mkKernel {Circuit Observable}.
Arguments cost_history_dict {Circuit Observable}.
Arguments submitted {Circuit Observable}.
Arguments stdout {Circuit Observable}.
Arguments ground_state_energies_simulator {Circuit Observable}.
Arguments ground_state_energies_hardware {Circuit Observable}.
Arguments kernel_init {Circuit Observable}.
Arguments estimator_run {Circuit Observable EstimatorError}.
Arguments set_dict {Circuit Observable EstimatorError}.
Arguments print_progress {Circuit Observable EstimatorError}.
Arguments cost_fn {Circuit Observable EstimatorError}.
Arguments cost_func {Circuit Observable EstimatorError}.
Arguments evaluate_all {Circuit Observable EstimatorError}.
Arguments iterate {Circuit Observable EstimatorError}.
Arguments minimize {Circuit Observable EstimatorError}.
Arguments tsp_run {Circuit Observable EstimatorError}.
Arguments responses {Circuit Observable EstimatorError}.
Arguments returned {EstimatorError}.
Arguments trace_faithful {Circuit Observable EstimatorError}.

End Vqe.

(** ** The 2-qubit transverse-field Ising notebook *)
Module Ising.
Import Py Eff Vqe.
Local Open Scope eff_scope.

(** The Pauli letters the notebook's labels use; their matrices are real. *)
Inductive pauli : Type := PI | PX | PZ.

(** A [SparsePauliOp]: a list of (label, coefficient) terms. Exact
    rationals stand for the floating-point coefficients. *)
Definition SparsePauliOp : Type := list (list pauli * Q).

(** [SparsePauliOp(label)] *)
Definition of_label (l : list pauli) : SparsePauliOp := [(l, 1%Q)].

(** [a + b] keeps the terms of both. *)
Definition op_add (a b : SparsePauliOp) : SparsePauliOp := a ++ b.

(** [a.num_qubits] *)
Definition op_qubits (a : SparsePauliOp) : nat :=
  match a with
  | [] => 0%nat
  | t :: _ => length (fst t)
  end.

(** [c * a] scales every coefficient; for [c == 0] the library returns
    instead the single identity term with coefficient 0. *)
Definition op_scale (c : Q) (a : SparsePauliOp) : SparsePauliOp :=
  if Qeq_bool c 0 then [(repeat PI (op_qubits a), 0%Q)]
  else map (fun t => (fst t, (c * snd t)%Q)) a.


Definition observables_labels : list (list pauli) :=
  [[PZ; PZ]; [PI; PX]; [PX; PI]].

Definition observables : list SparsePauliOp := map of_label observables_labels.

Definition J : Z := 1.
Definition num_qubits : Z := 2.

(** [np.linspace(start, stop, num)]: [start + i * (stop - start) / (num - 1)]
    for [i] in [range(num)]. *)
Definition linspace (start stop : Q) (num : Z) : list Q :=
  map (fun i => (start + inject_Z i * ((stop - start) / inject_Z (num - 1)))%Q)
      (range 0 num).

Definition b_list : list Q := linspace 0 4 10.

(** [len(l)] *)
Definition len {A} (l : list A) : Z := Z.of_nat (length l).

(** [def Hamiltonian(J, b, observables)]:
    [-J*(observables[0]) + b*(observables[1] + observables[2])];
    [None] is the [IndexError] of a list that is too short. *)
Definition Hamiltonian (J b : Q) (observables : list SparsePauliOp)
    : option SparsePauliOp :=
  match nth_error observables 0, nth_error observables 1,
        nth_error observables 2 with
  | Some o0, Some o1, Some o2 =>
      Some (op_add (op_scale (- J) o0) (op_scale b (op_add o1 o2)))
  | _, _, _ => None
  end.

(** *** Matrices of the operators *)

Definition Matrix : Type := list (list Q).

Definition pauli_matrix (p : pauli) : Matrix :=
  match p with
  | PI => [[1; 0]; [0; 1]]
  | PX => [[0; 1]; [1; 0]]
  | PZ => [[1; 0]; [0; -1]]
  end%Q.

Definition kron (a b : Matrix) : Matrix :=
  flat_map (fun ra =>
    map (fun rb => flat_map (fun u => map (Qmult u) rb) ra) b) a.

Definition label_matrix (l : list pauli) : Matrix :=
  fold_right (fun p acc => kron (pauli_matrix p) acc) [[1%Q]] l.

Definition mat_scale (c : Q) (a : Matrix) : Matrix :=
  map (map (Qmult c)) a.

Definition mat_add (a b : Matrix) : Matrix :=
  map (fun rr => map (fun uv => (fst uv + snd uv)%Q) (combine (fst rr) (snd rr)))
      (combine a b).

(** [H.to_matrix()] *)
Definition to_matrix (h : SparsePauliOp) : Matrix :=
  match h with
  | [] => []
  | t :: r =>
      fold_left (fun acc u => mat_add acc (mat_scale (snd u) (label_matrix (fst u))))
                r (mat_scale (snd t) (label_matrix (fst t)))
  end.

Definition dot (u v : list Q) : Q :=
  fold_right Qplus 0%Q (map (fun uv => (fst uv * snd uv)%Q) (combine u v)).

Definition mat_vec (a : Matrix) (v : list Q) : list Q :=
  map (fun row => dot row v) a.

(** *** The classical benchmark cell *)
Section Classical.

(** [np.real(np.sort(linalg.eig(m)[0]))], computed by the numerical
    library. *)
Variable Spectrum : Type.
Variable sorted_eigenvalues : Matrix -> Spectrum.

(** [for b in range(len(b_list)): ... energy_levels.append(np.real(Es))];
    [None] when [Hamiltonian] raises. *)
Fixpoint classical_runs (bs : list Z) (energy_levels : list Spectrum)
    : option (list Spectrum) :=
  match bs with
  | [] => Some energy_levels
  | b :: r =>
      match Hamiltonian (inject_Z J) (inject_Z b) observables with
      | Some H =>
          classical_runs r (energy_levels ++ [sorted_eigenvalues (to_matrix H)])
      | None => None
      end
  end.

Definition classical_loop : option (list Spectrum) :=
  classical_runs (range 0 (len b_list)) [].

End Classical.

(** *** The quantum runs cell *)
Inductive target : Type := simulator | hardware.

Inductive exn (EstimatorError : Type) : Type :=
| IndexError
| EstimatorFailure (e : EstimatorError).
Arguments IndexError {EstimatorError}.
Arguments EstimatorFailure {EstimatorError}.

Section Quantum.

Variables Circuit Observable EstimatorError : Type.

(** What the cell takes from the rest of the notebook and from the SDK. *)
Record Setup : Type := mkSetup {
  run_target : target;
  isa_ansatz : Circuit;
  (** [H.apply_layout(isa_ansatz.layout)] *)
  apply_layout : SparsePauliOp -> Observable;
  (** [np.random.rand(ansatz.num_parameters) * 2 * np.pi], as drawn in the
      iteration of index [b] *)
  initial_point : Z -> params;
  estimator : Estimator Circuit Observable (exn EstimatorError);
  minimizer : Minimizer
}.

Definition QRun := M (Kernel Circuit Observable) (exn EstimatorError).

Definition append_result (t : target) (e : energy) : QRun unit :=
  modify (fun k =>
    match t with
    | simulator =>
        mkKernel (cost_history_dict k) (submitted k) (stdout k)
                 (ground_state_energies_simulator k ++ [e])
                 (ground_state_energies_hardware k)
    | hardware =>
        mkKernel (cost_history_dict k) (submitted k) (stdout k)
                 (ground_state_energies_simulator k)
                 (ground_state_energies_hardware k ++ [e])
    end).

(** The body of [for b in range(len(b_list)):]. *)
Definition quantum_step (s : Setup) (b : Z) : QRun unit :=
  match Hamiltonian (inject_Z J) (inject_Z b) observables with
  | None => raise IndexError
  | Some H =>
      let H_isa := apply_layout s H in
      res <- minimize (minimizer s)
               (fun x => cost_fn x (isa_ansatz s) H_isa (estimator s))
               (initial_point s b) 100 ;;
      append_result (run_target s) (snd res)
  end.

Definition quantum_runs (s : Setup) (bs : list Z) : QRun unit :=
  for_ bs (quantum_step s).

Definition quantum_loop (s : Setup) : QRun unit :=
  quantum_runs s (range 0 (len b_list)).

End Quantum.

Arguments mkSetup {Circuit Observable EstimatorError}.
Arguments run_target {Circuit Observable EstimatorError}.
Arguments isa_ansatz {Circuit Observable EstimatorError}.
Arguments apply_layout {Circuit Observable EstimatorError}.
Arguments initial_point {Circuit Observable EstimatorError}.
Arguments estimator {Circuit Observable EstimatorError}.
Arguments minimizer {Circuit Observable EstimatorError}.
Arguments append_result {Circuit Observable EstimatorError}.
Arguments quantum_step {Circuit Observable EstimatorError}.
Arguments quantum_runs {Circuit Observable EstimatorError}.
Arguments quantum_loop {Circuit Observable EstimatorError}.

(** The value of [Hamiltonian(J, b, observables)] on the notebook's [J] and
    [observables]. *)
Definition ising_hamiltonian (b : Q) : SparsePauliOp :=
  ([PZ; PZ], (- inject_Z J * 1)%Q) ::
  (if Qeq_bool b 0 then [([PI; PI], 0%Q)]
   else [([PI; PX], (b * 1)%Q); ([PX; PI], (b * 1)%Q)]).

(** *** A small concrete setup, to run the cells on

    An estimator that returns the same value for every job, a minimizer
    that stops after the evaluation of the initial point, and the identity
    layout. *)
Definition constant_estimator {Circuit Observable E : Type} (v : energy)
    : Estimator Circuit Observable E :=
  fun _ _ => inr v.

Definition failing_estimator {Circuit Observable E : Type} (e : E)
    : Estimator Circuit Observable E :=
  fun _ _ => inl e.

Definition one_shot : Minimizer :=
  mkMinimizer (fun _ => None) (fun evals => last evals ([], NaN)).

Definition example_setup : Setup unit SparsePauliOp unit :=
  mkSetup simulator tt (fun H => H) (fun _ => [])
          (constant_estimator (Finite 0)) one_shot.


End Ising.

(** ** Drawing a route (Solution_1-QuantumRouteOptimisation) *)
Module Tour.
Import Py Eff.
Local Open Scope eff_scope.

Section Draw.

(** The type of the ["weight"] attribute of an edge. *)
Variable Weight : Type.

(** The input graph [G]: its nodes and the lookup [G[u][v]["weight"]],
    [None] where it raises [KeyError]. *)
Record Graph : Type := mkGraph {
  nodes : list Z;
  weight : Z -> Z -> option Weight
}.

(** [nx.DiGraph()]: nodes and weighted directed edges, in insertion order. *)
Record DiGraph : Type := mkDiGraph {
  di_nodes : list Z;
  di_edges : list ((Z * Z) * Weight)
}.

Inductive exn : Type :=
| KeyError (u v : Z)
| IndexError (i : Z).

Definition Draw := M DiGraph exn.

(** [order[i]] *)
Definition getitem (order : list Z) (i : Z) : Draw Z :=
  match seq_index (Z.of_nat (length order)) i with
  | Some r =>
      match nth_error order (Z.to_nat r) with
      | Some c => ret c
      | None => raise (IndexError i)
      end
  | None => raise (IndexError i)
  end.

(** [G[u][v]["weight"]] *)
Definition edge_weight (G : Graph) (u v : Z) : Draw Weight :=
  match weight G u v with
  | Some w => ret w
  | None => raise (KeyError u v)
  end.

Definition add_node (u : Z) (ns : list Z) : list Z :=
  if existsb (Z.eqb u) ns then ns else ns ++ [u].

(** Adding an edge that is already present replaces its attribute. *)
Fixpoint set_edge (u v : Z) (w : Weight) (es : list ((Z * Z) * Weight))
    : list ((Z * Z) * Weight) :=
  match es with
  | [] => [((u, v), w)]
  | ((u', v'), w') :: r =>
      if (u =? u') && (v =? v') then ((u, v), w) :: r
      else ((u', v'), w') :: set_edge u v w r
  end.

(** [G2.add_edge(u, v, weight=w)] *)
Definition add_edge (u v : Z) (w : Weight) : Draw unit :=
  modify (fun g => mkDiGraph (add_node v (add_node u (di_nodes g)))
                             (set_edge u v w (di_edges g))).

(** The body of the loop of
    [def draw_tsp_solution(G, order, colors, pos, title)], for the index
    [i] and [n = len(order)]; the keyword argument reads [order[i]] and
    [order[j]] again. *)
Definition add_leg (G : Graph) (order : list Z) (n i : Z) : Draw unit :=
  let j := (i + 1) mod n in
  u <- getitem order i ;;
  v <- getitem order j ;;
  u' <- getitem order i ;;
  v' <- getitem order j ;;
  w <- edge_weight G u' v' ;;
  add_edge u v w.

Definition route_edges (G : Graph) (order : list Z) : Draw unit :=
  let n := Z.of_nat (length order) in
  for_ (range 0 n) (add_leg G order n).

(** [G2 = nx.DiGraph(); G2.add_nodes_from(G)] followed by the loop: the
    directed graph handed to the drawing calls, or the exception raised. *)
Definition draw_tsp_solution (G : Graph) (order : list Z)
    : DiGraph * (exn + unit) :=
  route_edges G order (mkDiGraph (nodes G) []).

(** The [i]-th leg of the closed route: from [order[i]] to
    [order[(i + 1) % n]]. *)
Definition leg (order : list Z) (i : Z) : Z * Z :=
  (nth (Z.to_nat i) order 0,
   nth (Z.to_nat ((i + 1) mod Z.of_nat (length order))) order 0).

(** The statements after the loop: [plt.axes], [nx.draw_networkx],
    [nx.get_edge_attributes], [nx.draw_networkx_edge_labels] and
    [plt.title], on [G2] and the arguments [colors], [pos] and [title].
    These are calls of the plotting libraries: what they raise, if they
    raise, is given from outside. *)
Variable DrawingError : Type.

Inductive raised : Type :=
| InLoop (e : exn)
| InDrawing (e : DrawingError).

(** The whole call, for a route that is a list of city indices: the graph
    handed to the drawing calls, when they are reached, and the outcome. *)
Definition draw_tsp_solution_call (drawing : DiGraph -> option DrawingError)
    (G : Graph) (order : list Z) : option DiGraph * (raised + unit) :=
  match draw_tsp_solution G order with
  | (_, inl e) => (None, inl (InLoop e))
  | (G2, inr _) =>
      (Some G2,
       match drawing G2 with
       | Some e => inl (InDrawing e)
       | None => inr tt
       end)
  end.

End Draw.

Arguments mkGraph {Weight}.
Arguments nodes {Weight}.
Arguments weight {Weight}.
Arguments mkDiGraph {Weight}.
Arguments di_nodes {Weight}.
Arguments di_edges {Weight}.
Arguments draw_tsp_solution {Weight}.
Arguments InLoop {DrawingError}.
Arguments InDrawing {DrawingError}.
Arguments draw_tsp_solution_call {Weight DrawingError}.
Arguments route_edges {Weight}.
Arguments add_leg {Weight}.
Arguments getitem {Weight}.
Arguments edge_weight {Weight}.
Arguments add_edge {Weight}.
Arguments set_edge {Weight}.

End Tour.

(** ** Size of the circuit *)
Module Size.
Import Py Eff Ansatz.

Definition is_measure (g : gate) : bool :=
  match g with MeasureAll => true | _ => false end.

(** The instructions an entry of the gate list puts on a circuit of [nq]
    qubits: [measure_all()] adds a barrier and one measurement per qubit,
    every other call one instruction. *)
Definition instructions (nq : Z) (g : gate) : Z :=
  match g with
  | MeasureAll => 1 + nq
  | _ => 1
  end.

(** [len(qc.data)] *)
Definition size (qc : QuantumCircuit) : Z :=
  fold_right Z.add 0 (map (instructions (Ansatz.num_qubits qc)) (data qc)).

(** The gates ahead of the measurement. *)
Definition unitary_part (qc : QuantumCircuit) : list gate :=
  filter (fun g => negb (is_measure g)) (data qc).

End Size.

(** ** Reading the trace and the result lists *)
Module Trace.
Import Py Eff Vqe Ising.

(** The lines [cost_fn] prints for a history: the counter after the
    increment, from 1, and the cost. *)
Definition numbered (es : list energy) : list (Z * energy) :=
  combine (range 1 (Z.of_nat (length es) + 1)) es.

(** The counter is the length of the history (so [range(iters)] and
    [cost_history], which the last cell plots against each other, have the
    same size), and one line was printed per entry. *)
Definition progress_consistent {Circuit Observable}
    (k : Kernel Circuit Observable) : Prop :=
  iters (cost_history_dict k)
    = Z.of_nat (length (cost_history (cost_history_dict k))) /\
  stdout k = numbered (cost_history (cost_history_dict k)).

(** The list the quantum runs cell appends to, and the one it leaves. *)
Definition results_of {Circuit Observable} (t : target)
    (k : Kernel Circuit Observable) : list energy :=
  match t with
  | simulator => ground_state_energies_simulator k
  | hardware => ground_state_energies_hardware k
  end.

Definition other_target (t : target) : target :=
  match t with simulator => hardware | hardware => simulator end.

(** *** The results plot of the Ising notebook *)

Inductive plot_exn : Type :=
| ValueError.   (* x and y must be the same size *)

(** What ends up on the axes. *)
Inductive artist (Spectrum : Type) : Type :=
| Lines (x : list Q) (y : list Spectrum)
| Points (x : list Q) (y : list energy).
Arguments Lines {Spectrum}.
Arguments Points {Spectrum}.

Definition same_size {A B} (x : list A) (y : list B) : bool :=
  Nat.eqb (length x) (length y).

(** [ax.plot(b_list, energy_levels, ...)];
    [ax.scatter(b_list, ground_state_energies_simulator, ...)];
    [if len(ground_state_energies_hardware) > 0: ax.scatter(b_list,
    ground_state_energies_hardware, ...)]. The plotting calls refuse
    coordinates of different sizes. *)
Definition plot_cell {Spectrum Circuit Observable}
    (energy_levels : list Spectrum) (k : Kernel Circuit Observable)
    : plot_exn + list (artist Spectrum) :=
  if negb (same_size b_list energy_levels) then inl ValueError
  else if negb (same_size b_list (ground_state_energies_simulator k))
  then inl ValueError
  else if 0 <? len (ground_state_energies_hardware k) then
    if negb (same_size b_list (ground_state_energies_hardware k))
    then inl ValueError
    else inr [Lines b_list energy_levels;
              Points b_list (ground_state_energies_simulator k);
              Points b_list (ground_state_energies_hardware k)]
  else inr [Lines b_list energy_levels;
            Points b_list (ground_state_energies_simulator k)].

End Trace.

(** ** The set-up cells shared by the notebooks *)
Module Cells.
Import Py.

Inductive exn : Type :=
| NameError (name : String.string).

(** *** Node colours (Solution_1-QuantumRouteOptimisation) *)

Definition base_colors : list String.string :=
  ["red"; "blue"; "green"; "orange"; "purple"; "cyan"; "magenta";
   "yellow"]%string.

(** [l[:n]] *)
Definition slice_to {A} (l : list A) (n : Z) : list A :=
  if 0 <=? n then firstn (Z.to_nat n) l
  else firstn (Z.to_nat (Z.of_nat (length l) + n)) l.

(** [f"#{random.randint(0, 0xFFFFFF):06x}"]: the notebook never imports
    [random], so evaluating the element raises. *)
Definition random_color (_ : Z) : exn + String.string :=
  inl (NameError "random"%string).

(** [[f(x) for x in l]] *)
Fixpoint comprehension {A B} (f : A -> exn + B) (l : list A) : exn + list B :=
  match l with
  | [] => inr []
  | a :: r =>
      match f a with
      | inl e => inl e
      | inr b =>
          match comprehension f r with
          | inl e => inl e
          | inr bs => inr (b :: bs)
          end
      end
  end.

(** [if n > len(base_colors): ... colors = base_colors + additional_colors]
    [else: colors = base_colors[:n]] *)
Definition colors (n : Z) : exn + list String.string :=
  if Z.of_nat (length base_colors) <? n then
    match comprehension random_color
            (range 0 (n - Z.of_nat (length base_colors))) with
    | inl e => inl e
    | inr additional_colors => inr (base_colors ++ additional_colors)
    end
  else inr (slice_to base_colors n).

(** *** Channel and backend selection (both notebooks) *)

Inductive backend : Type :=
| AerSimulator
| LeastBusy                       (* service.least_busy(operational=True, simulator=False) *)
| Named (name : String.string).   (* service.backend(name) *)

(** The line printed by the final [if]/[elif]/[elif] of the cell, if any. *)
Definition plan_message (channel run_target : String.string)
    : option String.string :=
  if String.eqb channel "ibm_quantum"%string
     && negb (String.eqb run_target "simulator"%string)
  then Some "-- WARNING: This run may consume several minutes of your Open plan"%string
  else if String.eqb channel "ibm_cloud"%string
          && negb (String.eqb run_target "simulator"%string)
  then Some "-- WARNING: This run may consume several credits of your Paygo plan: ~1.6$/second"%string
  else if String.eqb run_target "simulator"%string
  then Some "-- This run will be a quick simulation using Qiskit Aer"%string
  else None.

Section Selection.

(** What a call of the runtime service raises. *)
Variable ServiceError : Type.

(** A [QiskitRuntimeService]: for each of the two requests of a backend,
    the exception it is refused with, if it is. *)
Record Service : Type := mkService {
  least_busy : option ServiceError;
  named : String.string -> option ServiceError
}.

(** The channel cell, where [connect channel] is the constructor call of
    the branch taken, with the token the cell holds. The name [service]
    is bound only by the two branches of the [if]/[elif], and only when
    the constructor returns. *)
Definition channel_cell (connect : String.string -> ServiceError + Service)
    (channel : String.string) : ServiceError + option Service :=
  if String.eqb channel "ibm_quantum"%string then
    match connect channel with
    | inl e => inl e
    | inr service => inr (Some service)
    end
  else if String.eqb channel "ibm_cloud"%string then
    match connect channel with
    | inl e => inl e
    | inr service => inr (Some service)
    end
  else inr None.

(** The name [service] in a kernel where only the channel cell may have
    bound it. *)
Definition service_after (r : ServiceError + option Service)
    : option Service :=
  match r with
  | inr (Some service) => Some service
  | _ => None
  end.

Inductive raised : Type :=
| Unbound (e : exn)
| Refused (e : ServiceError).

(** [service.least_busy(...)], [service.backend(name)] *)
Definition request (service : option Service) (b : backend)
    : raised + backend :=
  match service with
  | None => inl (Unbound (NameError "service"%string))
  | Some sv =>
      match match b with
            | AerSimulator => None
            | LeastBusy => least_busy sv
            | Named name => named sv name
            end with
      | Some e => inl (Refused e)
      | None => inr b
      end
  end.

(** [if run_target == 'simulator': ... elif run_target == 'least_busy': ...]
    [else: backend = service.backend('ibm_sherbrooke')] *)
Definition select_backend (service : option Service)
    (run_target : String.string) : raised + backend :=
  if String.eqb run_target "simulator"%string then inr AerSimulator
  else if String.eqb run_target "least_busy"%string then
    request service LeastBusy
  else request service (Named "ibm_sherbrooke"%string).

(** The selection cell: the backend it binds and the plan line it prints
    last, if any. A selection that raises ends the cell before anything is
    printed. *)
Definition selection_cell (service : option Service)
    (channel run_target : String.string)
    : raised + (backend * option String.string) :=
  match select_backend service run_target with
  | inl e => inl e
  | inr b => inr (b, plan_message channel run_target)
  end.

End Selection.

Arguments mkService {ServiceError}.
Arguments least_busy {ServiceError}.
Arguments named {ServiceError}.
Arguments channel_cell {ServiceError}.
Arguments service_after {ServiceError}.
Arguments Unbound {ServiceError}.
Arguments Refused {ServiceError}.
Arguments request {ServiceError}.
Arguments select_backend {ServiceError}.
Arguments selection_cell {ServiceError}.

(** *** Transpilation *)

(** A value compared by [==] in the transpilation cells. *)
Inductive value : Type :=
| Str (s : String.string)
| Backend (b : backend).

Definition backend_eqb (a b : backend) : bool :=
  match a, b with
  | AerSimulator, AerSimulator => true
  | LeastBusy, LeastBusy => true
  | Named x, Named y => String.eqb x y
  | _, _ => false
  end.

(** [a == b]: a backend object never equals a string. *)
Definition py_eq (a b : value) : bool :=
  match a, b with
  | Str x, Str y => String.eqb x y
  | Backend x, Backend y => backend_eqb x y
  | _, _ => false
  end.

Inductive transpilation : Type :=
| PresetPassManager (b : backend) (optimization_level : Z)
| Transpile (b : backend).

(** TSP notebook: [if(backend == 'simulator'): pm =
    generate_preset_pass_manager(backend=backend, optimization_level=1) ...]
    [else: isa_ansatz = transpile(ansatz, backend=backend)] *)
Definition tsp_transpile (b : backend) : transpilation :=
  if py_eq (Backend b) (Str "simulator"%string) then PresetPassManager b 1
  else Transpile b.

(** Ising notebook: [if(run_target == 'simulator'): ... optimization_level=3]
    [else: isa_ansatz = transpile(ansatz, backend=backend)] *)
Definition ising_transpile (run_target : String.string) (b : backend)
    : transpilation :=
  if py_eq (Str run_target) (Str "simulator"%string) then PresetPassManager b 3
  else Transpile b.

End Cells.

(** ** The matrix of the 2-spin Hamiltonian *)
Module Tfim.
Import Ising.
Local Open Scope Q_scope.

(** [-J ZZ + b (IX + XI)] written out. *)
Definition tfim_matrix (J b : Q) : Matrix :=
  [[- J; b; b; 0]; [b; J; 0; b]; [b; 0; J; b]; [0; b; b; - J]].

(** Entrywise equality of rationals. *)
Definition mat_eq (m m' : Matrix) : Prop := Forall2 (Forall2 Qeq) m m'.

(** [m v = lam v] for a vector [v] that is not zero. *)
Definition eigenvector (m : Matrix) (lam : Q) (v : list Q) : Prop :=
  Forall2 Qeq (mat_vec m v) (map (Qmult lam) v) /\
  ~ Forall (fun c => c == 0) v.

End Tfim.

(** * Properties *)

Import Py Eff Ansatz Vqe Ising.

(** ** Ranges and loops *)
Section RangeFacts.

Lemma in_range (a b x : Z) : In x (range a b) <-> a <= x < b.
Proof.
  unfold range. rewrite in_map_iff. split.
  - intros (i & <- & Hi). apply in_seq in Hi. lia.
  - intros H. exists (Z.to_nat (x - a)). split; [lia|].
    apply in_seq. lia.
Qed.

Lemma length_range (a b : Z) : length (range a b) = Z.to_nat (b - a).
Proof. unfold range. now rewrite length_map, length_seq. Qed.

Lemma range_nil (a b : Z) : b <= a -> range a b = [].
Proof.
  intros H. unfold range. replace (Z.to_nat (b - a)) with 0%nat by lia.
  reflexivity.
Qed.

Lemma range_snoc (a b : Z) : a <= b -> range a (b + 1) = range a b ++ [b].
Proof.
  intros H. unfold range.
  replace (Z.to_nat (b + 1 - a)) with (Z.to_nat (b - a) + 1)%nat by lia.
  rewrite seq_app, map_app. simpl. do 3 f_equal. lia.
Qed.

Lemma range_app (a b : Z) (m : nat) :
  a <= b ->
  range a (b + Z.of_nat m) = range a b ++ range b (b + Z.of_nat m).
Proof.
  intros Hab. induction m as [|m IH].
  - rewrite Z.add_0_r, (range_nil b b), app_nil_r by lia. reflexivity.
  - replace (b + Z.of_nat (S m)) with (b + Z.of_nat m + 1) by lia.
    rewrite !range_snoc by lia. now rewrite IH, app_assoc.
Qed.

Lemma NoDup_range (a b : Z) : NoDup (range a b).
Proof.
  unfold range. apply NoDup_map_NoDup_ForallPairs.
  - intros i j _ _ Heq. lia.
  - apply seq_NoDup.
Qed.

(** Blocks produced from distinct loop values that share no element make a
    duplicate-free concatenation. *)
Lemma NoDup_flat_map {A B} (f : A -> list B) (l : list A) :
  NoDup l ->
  (forall a, In a l -> NoDup (f a)) ->
  (forall a a' y, In a l -> In a' l -> In y (f a) -> In y (f a') -> a = a') ->
  NoDup (flat_map f l).
Proof.
  induction 1 as [|a l Hna Hnd IH]; intros Hf Hdis; simpl.
  - constructor.
  - apply NoDup_app.
    + apply Hf. now left.
    + apply IH.
      * intros; apply Hf; now right.
      * intros b b' y Hb Hb'. apply Hdis; now right.
    + intros y Hy Hy'. apply in_flat_map in Hy' as (a' & Ha' & Hy').
      assert (a = a') by (apply (Hdis a a' y); simpl; auto).
      subst. contradiction.
Qed.

Lemma map_as_flat_map {A B} (f : A -> B) (l : list A) :
  map f l = flat_map (fun a => [f a]) l.
Proof. induction l; simpl; congruence. Qed.

Lemma last_cons_default {A} (l : list A) (a d : A) :
  last (a :: l) d = last l a.
Proof.
  revert a d. induction l as [|b l IH]; intros a d; [reflexivity|].
  change (last (a :: b :: l) d) with (last (b :: l) d).
  now rewrite (IH b d), (IH b a).
Qed.

Lemma for_app {S E A} (l1 l2 : list A) (body : A -> M S E unit) (s : S) :
  for_ (l1 ++ l2) body s = bind (for_ l1 body) (fun _ => for_ l2 body) s.
Proof.
  revert s. induction l1 as [|a l1 IH]; intros s; simpl.
  - reflexivity.
  - unfold bind in *. destruct (body a s) as [s' [e|[]]]; [reflexivity|].
    apply IH.
Qed.

End RangeFacts.

(** ** The builder accepts every operand *)
Section BuilderFacts.
Local Open Scope eff_scope.

Lemma seq_index_nonneg (size i : Z) :
  0 <= i < size -> seq_index size i = Some i.
Proof.
  intros H. unfold seq_index.
  destruct (Z.leb_spec 0 i), (Z.ltb_spec i size); simpl; try lia; reflexivity.
Qed.

Lemma seq_index_neg (size i : Z) :
  - size <= i < 0 -> seq_index size i = Some (size + i).
Proof.
  intros H. unfold seq_index.
  destruct (Z.leb_spec 0 i); [lia|]. simpl.
  destruct (Z.leb_spec (- size) i), (Z.ltb_spec i 0); simpl; try lia.
  reflexivity.
Qed.

Lemma distinct_2 (a b : Z) (qc : QuantumCircuit) :
  a <> b -> distinct [a; b] qc = (qc, inr tt).
Proof.
  intros H. unfold distinct. simpl.
  apply Z.eqb_neq in H. now rewrite H.
Qed.

Lemma distinct_3 (a b c : Z) (qc : QuantumCircuit) :
  a <> b -> a <> c -> b <> c -> distinct [a; b; c] qc = (qc, inr tt).
Proof.
  intros H1 H2 H3. unfold distinct. simpl.
  apply Z.eqb_neq in H1, H2, H3. now rewrite H1, H2, H3.
Qed.

Lemma emits_bind nq (m1 m2 : Build unit) g1 g2 :
  emits nq m1 g1 -> emits nq m2 g2 -> emits nq (m1 ;; m2) (g1 ++ g2).
Proof.
  intros H1 H2 d. unfold bind. rewrite H1, H2. now rewrite app_assoc.
Qed.

Lemma emits_for {A} nq (l : list A) (body : A -> Build unit) f :
  (forall a, In a l -> emits nq (body a) (f a)) ->
  emits nq (for_ l body) (flat_map f l).
Proof.
  induction l as [|a l IH]; intros H; simpl.
  - intros d. unfold ret. now rewrite app_nil_r.
  - apply emits_bind; [apply H; now left|].
    apply IH. intros; apply H; now right.
Qed.

Lemma emits_x nq q : 0 <= q < nq -> emits nq (x q) [X q].
Proof.
  intros H d. unfold x, bind, qubit. simpl.
  now rewrite seq_index_nonneg.
Qed.

Lemma emits_ry nq len i q :
  0 <= q < nq -> 0 <= i < len ->
  emits nq (t <- getitem (mkPV len) i ;; ry t q) [RY (Param i) q].
Proof.
  intros Hq Hi d. unfold getitem, ry, bind, qubit. simpl.
  rewrite (seq_index_nonneg len i Hi). simpl.
  now rewrite seq_index_nonneg.
Qed.

Lemma emits_ry_neg nq len i q :
  0 <= q < nq -> 0 <= i < len ->
  emits nq (t <- getitem (mkPV len) i ;; ry (Neg t) q) [RY (Neg (Param i)) q].
Proof.
  intros Hq Hi d. unfold getitem, ry, bind, qubit. simpl.
  rewrite (seq_index_nonneg len i Hi). simpl.
  now rewrite seq_index_nonneg.
Qed.

Lemma emits_cz nq c t :
  0 <= c < nq -> 0 <= t < nq -> c <> t -> emits nq (cz c t) [CZ c t].
Proof.
  intros Hc Ht Hne d. unfold cz, bind, qubit. simpl.
  rewrite !seq_index_nonneg by assumption.
  now rewrite distinct_2.
Qed.

Lemma emits_cx nq c t :
  0 <= c < nq -> 0 <= t < nq -> c <> t -> emits nq (cx c t) [CX c t].
Proof.
  intros Hc Ht Hne d. unfold cx, bind, qubit. simpl.
  rewrite !seq_index_nonneg by assumption.
  now rewrite distinct_2.
Qed.

Lemma emits_cswap nq c a b :
  0 <= c < nq -> 0 <= a < nq -> 0 <= b < nq ->
  c <> a -> c <> b -> a <> b ->
  emits nq (cswap c a b) [CSWAP c a b].
Proof.
  intros Hc Ha Hb H1 H2 H3 d. unfold cswap, bind, qubit. simpl.
  rewrite !seq_index_nonneg by assumption.
  now rewrite distinct_3.
Qed.

Lemma emits_base_circuit n nq len :
  2 <= n -> n + 1 < nq -> 1 < len ->
  emits nq (base_circuit n (mkPV len)) (base_gates n).
Proof.
  intros Hn Hq Hl. unfold base_circuit, base_gates.
  change [X 0; RY (Param 1) 1; CZ 0 1; RY (Neg (Param 1)) 1; CX 1 0;
          CX 1 n; CX 0 (n + 1)]
    with ([X 0] ++ [RY (Param 1) 1] ++ [CZ 0 1] ++ [RY (Neg (Param 1)) 1]
          ++ [CX 1 0] ++ [CX 1 n] ++ [CX 0 (n + 1)]).
  repeat apply emits_bind;
    first [ apply emits_x | apply emits_ry | apply emits_ry_neg
          | apply emits_cz | apply emits_cx ]; lia.
Qed.

Lemma emits_W_circuit n q1n nq len :
  0 <= q1n -> q1n + n <= nq -> q1n + n - 1 <= len -> 1 <= n ->
  emits nq (W_circuit n q1n (mkPV len)) (W_gates n q1n).
Proof.
  intros Hq Hn Hl H1. unfold W_circuit, W_gates.
  change (X q1n :: ?l) with ([X q1n] ++ l).
  apply emits_bind; [apply emits_x; lia|].
  apply emits_bind.
  - apply emits_for. intros j Hj. apply in_range in Hj.
    change [RY (Param (j - 1)) j; CZ (j - 1) j; RY (Neg (Param (j - 1))) j]
      with ([RY (Param (j - 1)) j] ++ [CZ (j - 1) j]
            ++ [RY (Neg (Param (j - 1))) j]).
    repeat apply emits_bind;
      first [ apply emits_ry | apply emits_ry_neg | apply emits_cz ]; lia.
  - rewrite map_as_flat_map.
    apply emits_for. intros j Hj. apply in_range in Hj.
    apply emits_cx; lia.
Qed.

Lemma cswap_operands n k v p :
  3 <= k <= n -> 1 <= v < k -> 1 <= p < k ->
  let c := n * (k - 1) + v - 1 in
  let a := n * (p - 1) + n - (n - k) - 1 in
  let b := n * (p - 1) + v - 1 in
  (0 <= c < n * n /\ 0 <= a < n * n /\ 0 <= b < n * n) /\
  (c <> a /\ c <> b /\ a <> b).
Proof.
  intros Hk Hv Hp c a b. subst c a b.
  assert (n * p <= n * (k - 1)) by nia.
  assert (n * (k - 1) <= n * (n - 1)) by nia.
  assert (0 <= n * (p - 1)) by nia.
  repeat split; lia.
Qed.

Lemma emits_swap_stage n :
  emits (n ^ 2) (swap_stage n) (swap_gates n).
Proof.
  unfold swap_stage, swap_gates. rewrite Z.pow_2_r.
  apply emits_for. intros k Hk. apply in_range in Hk.
  apply emits_for. intros v Hv. apply in_range in Hv.
  rewrite map_as_flat_map.
  apply emits_for. intros p Hp. apply in_range in Hp.
  destruct (cswap_operands n k v p) as [(?&?&?) (?&?&?)]; try lia.
  now apply emits_cswap.
Qed.

Lemma emits_construct n :
  2 <= n -> emits (n ^ 2) (construct n (mkPV (n ^ 2))) (ansatz_gates n).
Proof.
  intros Hn. unfold construct, ansatz_gates.
  assert (Hsq : n ^ 2 = n * n) by apply Z.pow_2_r.
  repeat apply emits_bind.
  - apply emits_base_circuit; nia.
  - apply emits_for. intros i Hi. apply in_range in Hi.
    assert (n * (i - 1) <= n * (n - 1)) by nia.
    apply emits_W_circuit; nia.
  - apply emits_swap_stage.
  - intros d. reflexivity.
Qed.

(** For every [n >= 2] the construction cell raises nothing and leaves
    exactly [ansatz_gates n] on the [n ** 2]-qubit register. *)
Lemma ansatz_accepted n :
  2 <= n -> ansatz n = (mkQC (n ^ 2) (ansatz_gates n), inr tt).
Proof.
  intros Hn. unfold ansatz. cbv zeta. now rewrite (emits_construct n Hn []).
Qed.

End BuilderFacts.

(** ** What the ansatz is made of *)
Section GateFacts.

Lemma in_W_gates g i q :
  In g (W_gates i q) <->
  g = X q \/
  exists j, q + 1 <= j < q + i /\
    (g = RY (Param (j - 1)) j \/ g = CZ (j - 1) j \/
     g = RY (Neg (Param (j - 1))) j \/ g = CX j (j - 1)).
Proof.
  unfold W_gates. simpl. rewrite in_app_iff, in_flat_map, in_map_iff.
  split.
  - intros [H|[(j & Hj & Hg)|(j & Hg & Hj)]]; [now left| |];
      apply in_range in Hj; right; exists j; split; auto.
    simpl in Hg. intuition auto.
  - intros [H|(j & Hj & Hg)]; [now left|].
    apply in_range in Hj. right.
    destruct Hg as [Hg|[Hg|[Hg|Hg]]].
    1-3: left; exists j; split; [assumption|]; simpl; auto.
    right. exists j; auto.
Qed.

Lemma in_swap_gates g n :
  In g (swap_gates n) <->
  exists k v p, 3 <= k <= n /\ 1 <= v <= k - 1 /\ 1 <= p <= k - 1 /\
                g = cswap_gate n k v p.
Proof.
  unfold swap_gates. rewrite in_flat_map. split.
  - intros (k & Hk & Hg). apply in_flat_map in Hg as (v & Hv & Hg).
    apply in_map_iff in Hg as (p & Hg & Hp).
    apply in_range in Hk, Hv, Hp. exists k, v, p. repeat split; auto; lia.
  - intros (k & v & p & Hk & Hv & Hp & ->).
    exists k. split; [apply in_range; lia|].
    apply in_flat_map. exists v. split; [apply in_range; lia|].
    apply in_map_iff. exists p. split; [reflexivity|apply in_range; lia].
Qed.

Lemma in_ansatz_gates g n :
  In g (ansatz_gates n) <->
  In g (base_gates n) \/
  (exists i, 3 <= i <= n /\ In g (W_gates i (n * (i - 1)))) \/
  In g (swap_gates n) \/
  g = MeasureAll.
Proof.
  unfold ansatz_gates. rewrite !in_app_iff, in_flat_map. simpl.
  split.
  - intros [H|[(i & Hi & H)|[H|[H|[]]]]]; auto.
    apply in_range in Hi. right; left. exists i. split; [lia|assumption].
  - intros [H|[(i & Hi & H)|[H|H]]]; auto.
    right; left. exists i. split; [apply in_range; lia|assumption].
Qed.

Lemma filter_cswap_W i q : filter is_cswap (W_gates i q) = [].
Proof.
  unfold W_gates. simpl. rewrite filter_app.
  assert (H1 : forall l, filter is_cswap
            (flat_map (fun j => [RY (Param (j - 1)) j; CZ (j - 1) j;
                                 RY (Neg (Param (j - 1))) j]) l) = []).
  { induction l; simpl; auto. }
  assert (H2 : forall l, filter is_cswap (map (fun j => CX j (j - 1)) l) = []).
  { induction l; simpl; auto. }
  now rewrite H1, H2.
Qed.

Lemma filter_cswap_swap_gates n : filter is_cswap (swap_gates n) = swap_gates n.
Proof.
  apply forallb_filter_id. apply forallb_forall. intros g Hg.
  apply in_swap_gates in Hg as (k & v & p & _ & _ & _ & ->). reflexivity.
Qed.

(** Only the swap stage contributes controlled-swap gates. *)
Lemma filter_cswap_ansatz n :
  filter is_cswap (ansatz_gates n) = swap_gates n.
Proof.
  unfold ansatz_gates. rewrite !filter_app. simpl.
  rewrite filter_cswap_swap_gates, app_nil_r.
  assert (H : forall l, filter is_cswap
            (flat_map (fun i => W_gates i (n * (i - 1))) l) = []).
  { induction l as [|i l IH]; [reflexivity|]. cbn [flat_map].
    now rewrite filter_app, filter_cswap_W, IH. }
  now rewrite H.
Qed.

End GateFacts.

(** ** Qubit operands (C9) *)
Section Operands.

Lemma NoDup_pair (a b : Z) : a <> b -> NoDup [a; b].
Proof.
  intros H. repeat constructor; simpl; intuition auto.
Qed.

Lemma NoDup_triple (a b c : Z) : a <> b -> a <> c -> b <> c -> NoDup [a; b; c].
Proof.
  intros H1 H2 H3. repeat constructor; simpl; intuition auto.
Qed.

(** Every gate of [ansatz_gates n] has its operands inside the register and
    pairwise distinct. *)
Lemma ansatz_gates_operands n g :
  3 <= n -> In g (ansatz_gates n) ->
  (forall q, In q (gate_qubits (n ^ 2) g) -> 0 <= q <= n ^ 2 - 1) /\
  NoDup (gate_qubits (n ^ 2) g).
Proof.
  intros Hn Hg. rewrite Z.pow_2_r.
  apply in_ansatz_gates in Hg as [Hg|[(i & Hi & Hg)|[Hg|Hg]]].
  - unfold base_gates in Hg. simpl in Hg.
    assert (n + 1 < n * n) by nia.
    repeat (destruct Hg as [ <- | Hg ]; [simpl; split;
      [intros q Hq; simpl in Hq; intuition lia
      | first [apply NoDup_pair; lia | repeat constructor; simpl; tauto]]|]).
    contradiction.
  - assert (n * (i - 1) <= n * (n - 1)) by nia.
    assert (0 <= n * (i - 1)) by nia.
    apply in_W_gates in Hg as [ -> | (j & Hj & [ -> | [ -> | [ -> | -> ]]])]; simpl;
      (split; [intros q Hq; simpl in Hq; intuition lia
              | first [apply NoDup_pair; lia | repeat constructor; simpl; tauto]]).
  - apply in_swap_gates in Hg as (k & v & p & Hk & Hv & Hp & ->).
    destruct (cswap_operands n k v p) as [(?&?&?) (?&?&?)]; try lia.
    unfold cswap_gate. simpl. split.
    + intros q Hq. simpl in Hq. intuition lia.
    + now apply NoDup_triple.
  - subst g. simpl. split.
    + intros q Hq. apply in_range in Hq. lia.
    + apply NoDup_range.
Qed.

(** C9. For every [n >= 3] the construction raises nothing; every gate it
    leaves on the circuit addresses only qubit indices in [0, n^2 - 1], with
    no operand repeated within a gate; and for [3 <= k <= n],
    [1 <= v, p <= k - 1] the controlled swap with control
    [n*(k-1)+v-1] and targets [n*(p-1)+n-(n-k)-1], [n*(p-1)+v-1] is emitted
    with three pairwise distinct operands. *)
Theorem ansatz_operands_in_range_and_distinct (n : Z) (Hn : 3 <= n) :
  exists gs,
    ansatz n = (mkQC (n ^ 2) gs, inr tt) /\
    (forall g q, In g gs -> In q (gate_qubits (n ^ 2) g) ->
                 0 <= q <= n ^ 2 - 1) /\
    (forall g, In g gs -> NoDup (gate_qubits (n ^ 2) g)) /\
    (forall k v p, 3 <= k <= n -> 1 <= v <= k - 1 -> 1 <= p <= k - 1 ->
       let c := n * (k - 1) + v - 1 in
       let a := n * (p - 1) + n - (n - k) - 1 in
       let b := n * (p - 1) + v - 1 in
       In (CSWAP c a b) gs /\ c <> a /\ c <> b /\ a <> b) /\
    (forall c a b, In (CSWAP c a b) gs ->
       exists k v p, 3 <= k <= n /\ 1 <= v <= k - 1 /\ 1 <= p <= k - 1 /\
         c = n * (k - 1) + v - 1 /\ a = n * (p - 1) + n - (n - k) - 1 /\
         b = n * (p - 1) + v - 1).
Proof.
  exists (ansatz_gates n). split; [apply ansatz_accepted; lia|].
  split; [|split; [|split]].
  - intros g q Hg. now apply ansatz_gates_operands.
  - intros g Hg. now apply ansatz_gates_operands.
  - intros k v p Hk Hv Hp c a b. split.
    + apply in_ansatz_gates. right; right; left.
      apply in_swap_gates. exists k, v, p. auto.
    + subst c a b. apply (cswap_operands n k v p); lia.
  - intros c a b Hg.
    assert (Hs : In (CSWAP c a b) (filter is_cswap (ansatz_gates n)))
      by (apply filter_In; auto).
    rewrite filter_cswap_ansatz in Hs.
    apply in_swap_gates in Hs as (k & v & p & Hk & Hv & Hp & Heq).
    unfold cswap_gate in Heq. inversion Heq; subst.
    exists k, v, p. auto 10.
Qed.

(** The theorem at the notebook's city count, [n = 5]. *)
Lemma ansatz_operands_in_range_and_distinct_witness :
  exists gs,
    ansatz 5 = (mkQC (5 ^ 2) gs, inr tt) /\
    (forall g q, In g gs -> In q (gate_qubits (5 ^ 2) g) ->
                 0 <= q <= 5 ^ 2 - 1) /\
    (forall g, In g gs -> NoDup (gate_qubits (5 ^ 2) g)) /\
    (forall k v p, 3 <= k <= 5 -> 1 <= v <= k - 1 -> 1 <= p <= k - 1 ->
       let c := 5 * (k - 1) + v - 1 in
       let a := 5 * (p - 1) + 5 - (5 - k) - 1 in
       let b := 5 * (p - 1) + v - 1 in
       In (CSWAP c a b) gs /\ c <> a /\ c <> b /\ a <> b) /\
    (forall c a b, In (CSWAP c a b) gs ->
       exists k v p, 3 <= k <= 5 /\ 1 <= v <= k - 1 /\ 1 <= p <= k - 1 /\
         c = 5 * (k - 1) + v - 1 /\ a = 5 * (p - 1) + 5 - (5 - k) - 1 /\
         b = 5 * (p - 1) + v - 1).
Proof. apply (ansatz_operands_in_range_and_distinct 5). lia. Defined.

End Operands.

(** ** The controlled-swap stage (C2) *)
Section SwapStage.

(** The control operand determines the stage [k] and the position [v]. *)
Lemma control_determines n k v k' v' :
  3 <= k <= n -> 1 <= v <= k - 1 -> 3 <= k' <= n -> 1 <= v' <= k' - 1 ->
  n * (k - 1) + v - 1 = n * (k' - 1) + v' - 1 -> k = k' /\ v = v'.
Proof.
  intros Hk Hv Hk' Hv' Heq.
  assert (k = k') by nia. subst. lia.
Qed.

Lemma cswap_gate_inj n k v p k' v' p' :
  3 <= k <= n -> 1 <= v <= k - 1 -> 3 <= k' <= n -> 1 <= v' <= k' - 1 ->
  cswap_gate n k v p = cswap_gate n k' v' p' ->
  k = k' /\ v = v' /\ p = p'.
Proof.
  intros Hk Hv Hk' Hv' Heq. unfold cswap_gate in Heq.
  injection Heq as Hc Ha Hb.
  destruct (control_determines n k v k' v') as [-> ->]; auto.
  repeat split. nia.
Qed.

Lemma NoDup_swap_gates n : NoDup (swap_gates n).
Proof.
  unfold swap_gates. apply NoDup_flat_map.
  - apply NoDup_range.
  - intros k Hk. apply in_range in Hk. apply NoDup_flat_map.
    + apply NoDup_range.
    + intros v Hv. apply in_range in Hv.
      apply NoDup_map_NoDup_ForallPairs; [|apply NoDup_range].
      intros p p' Hp Hp' Heq.
      apply (cswap_gate_inj n k v p k v p') in Heq; lia.
    + intros v v' g Hv Hv' Hg Hg'. apply in_range in Hv, Hv'.
      apply in_map_iff in Hg as (p & <- & _).
      apply in_map_iff in Hg' as (p' & Heq & _).
      apply (cswap_gate_inj n k v' p' k v p) in Heq; lia.
  - intros k k' g Hk Hk' Hg Hg'. apply in_range in Hk, Hk'.
    apply in_flat_map in Hg as (v & Hv & Hg).
    apply in_flat_map in Hg' as (v' & Hv' & Hg').
    apply in_range in Hv, Hv'.
    apply in_map_iff in Hg as (p & <- & _).
    apply in_map_iff in Hg' as (p' & Heq & _).
    apply (cswap_gate_inj n k' v' p' k v p) in Heq; lia.
Qed.

Lemma length_stage k :
  1 <= k ->
  Z.of_nat (length (flat_map (fun v => map (fun p => (v, p)) (range 1 k))
                             (range 1 k))) = (k - 1) * (k - 1).
Proof.
  intros Hk. rewrite length_flat_map.
  rewrite (map_ext _ (fun _ => Z.to_nat (k - 1))).
  2: { intros v. now rewrite length_map, length_range. }
  generalize (length_range 1 k). generalize (range 1 k). intros l Hl.
  assert (H : forall l' : list Z,
             list_sum (map (fun _ => Z.to_nat (k - 1)) l')
             = (length l' * Z.to_nat (k - 1))%nat).
  { induction l' as [|a l' IH]; simpl; [reflexivity|]. now rewrite IH. }
  rewrite H, Hl. nia.
Qed.

Lemma length_swap_block n k :
  1 <= k ->
  Z.of_nat (length (flat_map (fun v => map (fun p => cswap_gate n k v p)
                                           (range 1 k)) (range 1 k)))
  = (k - 1) * (k - 1).
Proof.
  intros Hk. rewrite <- (length_stage k Hk).
  rewrite !length_flat_map. do 2 f_equal. apply map_ext.
  intros v. now rewrite !length_map.
Qed.

(** The closed form of the nested-loop count:
    [sum_{k=3..n} (k-1)^2 = (n-1) n (2n-1) / 6 - 1]. *)
Lemma length_swap_stages n (m : nat) :
  6 * Z.of_nat (length (flat_map (fun k =>
        flat_map (fun v => map (fun p => cswap_gate n k v p) (range 1 k))
                 (range 1 k)) (range 3 (2 + Z.of_nat m + 1))))
  = (2 + Z.of_nat m - 1) * (2 + Z.of_nat m) * (2 * (2 + Z.of_nat m) - 1) - 6.
Proof.
  induction m as [|m IH].
  - reflexivity.
  - replace (2 + Z.of_nat (S m) + 1) with ((2 + Z.of_nat m + 1) + 1) by lia.
    rewrite range_snoc by lia. rewrite flat_map_app, length_app.
    cbn [flat_map]. rewrite app_nil_r, Nat2Z.inj_add.
    rewrite length_swap_block by lia. nia.
Qed.

Lemma length_swap_gates n :
  2 <= n ->
  6 * Z.of_nat (length (swap_gates n)) = (n - 1) * n * (2 * n - 1) - 6.
Proof.
  intros Hn. unfold swap_gates.
  pose proof (length_swap_stages n (Z.to_nat (n - 2))) as H.
  replace (2 + Z.of_nat (Z.to_nat (n - 2))) with n in H by lia.
  exact H.
Qed.

(** C2. For [n = 3] the swap stage runs the single stage [k = 3] with [v]
    and [p] in [{1, 2}] and the circuit holds exactly 4 controlled swaps;
    for every [n >= 3] the controlled swaps of the circuit are exactly one
    per triple [(k, v, p)] with [3 <= k <= n] and [1 <= v, p <= k - 1]
    (each such gate occurs once, and there is no other controlled swap),
    [sum_{k=3..n} (k-1)^2] in all. *)
Theorem swap_stage_one_cswap_per_triple (n : Z) (Hn : 3 <= n) :
  (range 3 (3 + 1) = [3] /\ range 1 3 = [1; 2] /\
   filter is_cswap (data (fst (ansatz 3)))
   = [cswap_gate 3 3 1 1; cswap_gate 3 3 1 2;
      cswap_gate 3 3 2 1; cswap_gate 3 3 2 2] /\
   length (filter is_cswap (data (fst (ansatz 3)))) = 4%nat) /\
  exists gs,
    ansatz n = (mkQC (n ^ 2) gs, inr tt) /\
    (forall k v p, 3 <= k <= n -> 1 <= v <= k - 1 -> 1 <= p <= k - 1 ->
       count_occ gate_eq_dec gs (cswap_gate n k v p) = 1%nat) /\
    (forall g, In g gs -> is_cswap g = true ->
       exists k v p, 3 <= k <= n /\ 1 <= v <= k - 1 /\ 1 <= p <= k - 1 /\
                     g = cswap_gate n k v p) /\
    6 * Z.of_nat (length (filter is_cswap gs)) = (n - 1) * n * (2 * n - 1) - 6.
Proof.
  split; [repeat split|].
  exists (ansatz_gates n). split; [apply ansatz_accepted; lia|].
  assert (Hcount : forall g, is_cswap g = true ->
            count_occ gate_eq_dec (ansatz_gates n) g
            = count_occ gate_eq_dec (swap_gates n) g).
  { intros g Hg. rewrite <- filter_cswap_ansatz.
    generalize (ansatz_gates n). induction l as [|h l IH]; [reflexivity|].
    simpl. destruct (gate_eq_dec h g) as [->|Hne].
    - rewrite Hg. simpl. destruct (gate_eq_dec g g); congruence.
    - destruct (is_cswap h); simpl; [|assumption].
      destruct (gate_eq_dec h g); congruence. }
  split; [|split].
  - intros k v p Hk Hv Hp. rewrite Hcount by reflexivity.
    apply NoDup_count_occ'; [apply NoDup_swap_gates|].
    apply in_swap_gates. exists k, v, p. auto.
  - intros g Hg Hc.
    assert (Hs : In g (filter is_cswap (ansatz_gates n)))
      by (apply filter_In; auto).
    rewrite filter_cswap_ansatz in Hs. now apply in_swap_gates.
  - rewrite filter_cswap_ansatz. apply length_swap_gates. lia.
Qed.

(** The theorem at [n = 3]: the four gates, each once. *)
Lemma swap_stage_one_cswap_per_triple_witness :
  (range 3 (3 + 1) = [3] /\ range 1 3 = [1; 2] /\
   filter is_cswap (data (fst (ansatz 3)))
   = [cswap_gate 3 3 1 1; cswap_gate 3 3 1 2;
      cswap_gate 3 3 2 1; cswap_gate 3 3 2 2] /\
   length (filter is_cswap (data (fst (ansatz 3)))) = 4%nat) /\
  exists gs,
    ansatz 3 = (mkQC (3 ^ 2) gs, inr tt) /\
    (forall k v p, 3 <= k <= 3 -> 1 <= v <= k - 1 -> 1 <= p <= k - 1 ->
       count_occ gate_eq_dec gs (cswap_gate 3 k v p) = 1%nat) /\
    (forall g, In g gs -> is_cswap g = true ->
       exists k v p, 3 <= k <= 3 /\ 1 <= v <= k - 1 /\ 1 <= p <= k - 1 /\
                     g = cswap_gate 3 k v p) /\
    6 * Z.of_nat (length (filter is_cswap gs)) = (3 - 1) * 3 * (2 * 3 - 1) - 6.
Proof. apply (swap_stage_one_cswap_per_triple 3). lia. Defined.

End SwapStage.

(** ** Parameter references (C1) *)
Section Parameters.

Lemma in_param_refs x gs :
  In x (param_refs gs) <-> exists e q, In (RY e q) gs /\ x = pexpr_index e.
Proof.
  unfold param_refs. rewrite in_flat_map. split.
  - intros (g & Hg & Hx). destruct g; simpl in Hx; try contradiction.
    destruct Hx as [<-|[]]. eauto.
  - intros (e & q & Hg & ->). exists (RY e q). simpl. auto.
Qed.

Lemma in_W_params x n :
  In x (W_params n) <->
  exists i, 3 <= i <= n /\ n * (i - 1) <= x <= n * (i - 1) + i - 2.
Proof.
  unfold W_params. rewrite in_flat_map. split.
  - intros (i & Hi & Hx). apply in_map_iff in Hx as (j & <- & Hj).
    apply in_range in Hi, Hj. exists i. lia.
  - intros (i & Hi & Hx). exists i. split; [apply in_range; lia|].
    apply in_map_iff. exists (x + 1). split; [lia|apply in_range; lia].
Qed.

(** The indices referenced by the circuit: [1] from the base block and the
    indices of the W blocks. *)
Lemma param_refs_ansatz_gates x n :
  In x (param_refs (ansatz_gates n)) <-> In x (1 :: W_params n).
Proof.
  rewrite in_param_refs. simpl. rewrite in_W_params. split.
  - intros (e & q & Hg & ->).
    apply in_ansatz_gates in Hg as [Hg|[(i & Hi & Hg)|[Hg|Hg]]].
    + unfold base_gates in Hg. simpl in Hg.
      repeat (destruct Hg as [Hg|Hg]; [inversion Hg; subst; simpl; auto|]).
      contradiction.
    + right. exists i. split; [assumption|].
      apply in_W_gates in Hg as [Hg|(j & Hj & [Hg|[Hg|[Hg|Hg]]])];
        inversion Hg; subst; simpl; lia.
    + apply in_swap_gates in Hg as (k & v & p & _ & _ & _ & Hg).
      discriminate Hg.
    + discriminate Hg.
  - intros [<-|(i & Hi & Hx)].
    + exists (Param 1), 1. split; [|reflexivity].
      apply in_ansatz_gates. left. simpl. auto.
    + exists (Param x), (x + 1). split; [|reflexivity].
      apply in_ansatz_gates. right; left. exists i. split; [assumption|].
      apply in_W_gates. right. exists (x + 1). split; [lia|].
      left. do 2 f_equal. lia.
Qed.

Lemma NoDup_W_params n : 3 <= n -> NoDup (1 :: W_params n).
Proof.
  intros Hn. constructor.
  - rewrite in_W_params. intros (i & Hi & Hx). nia.
  - unfold W_params. apply NoDup_flat_map.
    + apply NoDup_range.
    + intros i _. apply NoDup_map_NoDup_ForallPairs; [|apply NoDup_range].
      intros j j' _ _ Heq. lia.
    + intros i i' x Hi Hi' Hx Hx'. apply in_range in Hi, Hi'.
      apply in_map_iff in Hx as (j & <- & Hj).
      apply in_map_iff in Hx' as (j' & Heq & Hj').
      apply in_range in Hj, Hj'. nia.
Qed.

(** [sum_{i=3..n} (i-1) = n (n-1) / 2 - 1] *)
Lemma length_W_blocks n (m : nat) :
  2 * Z.of_nat (length (flat_map (fun i =>
        map (fun j => j - 1) (range (n * (i - 1) + 1) (n * (i - 1) + i)))
        (range 3 (2 + Z.of_nat m + 1))))
  = (2 + Z.of_nat m) * (2 + Z.of_nat m - 1) - 2.
Proof.
  induction m as [|m IH].
  - reflexivity.
  - replace (2 + Z.of_nat (S m) + 1) with ((2 + Z.of_nat m + 1) + 1) by lia.
    rewrite range_snoc by lia. rewrite flat_map_app, length_app.
    cbn [flat_map]. rewrite app_nil_r, Nat2Z.inj_add.
    rewrite length_map, length_range. nia.
Qed.

Lemma length_W_params n :
  2 <= n -> 2 * Z.of_nat (length (W_params n)) = n * (n - 1) - 2.
Proof.
  intros Hn. unfold W_params.
  pose proof (length_W_blocks n (Z.to_nat (n - 2))) as H.
  replace (2 + Z.of_nat (Z.to_nat (n - 2))) with n in H by lia.
  exact H.
Qed.

(** The distinct parameters of the circuit are [n (n - 1) / 2] in number. *)
Lemma length_parameters_ansatz_gates n :
  3 <= n ->
  2 * Z.of_nat (length (parameters (ansatz_gates n))) = n * (n - 1).
Proof.
  intros Hn.
  assert (Hp : Permutation (parameters (ansatz_gates n)) (1 :: W_params n)).
  { apply NoDup_Permutation.
    - apply NoDup_nodup.
    - now apply NoDup_W_params.
    - intros x. unfold parameters. rewrite nodup_In.
      apply param_refs_ansatz_gates. }
  rewrite (Permutation_length Hp). simpl length.
  rewrite Nat2Z.inj_succ. pose proof (length_W_params n). lia.
Qed.

(** C1, as stated, fails: for [n = 3] the circuit has 3 distinct free
    parameters (6 references), while the declared vector [phi] has
    [3^2 = 9] entries. *)
Lemma parameter_count_not_vector_length :
  let gs := data (fst (ansatz 3)) in
  snd (ansatz 3) = inr tt /\
  parameters gs = [1; 6; 7] /\
  param_refs gs = [1; 1; 6; 6; 7; 7] /\
  Z.of_nat (length (parameters gs)) <> 3 ^ 2 /\
  Z.of_nat (length (param_refs gs)) <> 3 ^ 2.
Proof. vm_compute. repeat split; discriminate. Qed.

(** C1, amended. For every [n >= 3] the construction raises nothing, every
    parameter reference of an emitted gate is an index of the declared
    vector (none is negative or [>= n^2]), and the circuit has
    [n (n - 1) / 2] distinct free parameters, fewer than the [n^2] entries
    declared. *)
Theorem parameter_references_within_declared_vector (n : Z) (Hn : 3 <= n) :
  exists gs,
    ansatz n = (mkQC (n ^ 2) gs, inr tt) /\
    (forall i, In i (param_refs gs) -> 0 <= i < n ^ 2) /\
    2 * Z.of_nat (length (parameters gs)) = n * (n - 1) /\
    Z.of_nat (length (parameters gs)) < n ^ 2.
Proof.
  exists (ansatz_gates n). split; [apply ansatz_accepted; lia|].
  pose proof (length_parameters_ansatz_gates n Hn) as Hlen.
  rewrite Z.pow_2_r. repeat split; try nia.
  - apply param_refs_ansatz_gates in H. simpl in H.
    destruct H as [<-|H]; [lia|]. apply in_W_params in H as (j & Hj & Hi). nia.
  - apply param_refs_ansatz_gates in H. simpl in H.
    destruct H as [<-|H]; [nia|]. apply in_W_params in H as (j & Hj & Hi). nia.
Qed.

(** The theorem at the notebook's [n = 5]: 10 parameters out of 25. *)
Lemma parameter_references_within_declared_vector_witness :
  exists gs,
    ansatz 5 = (mkQC (5 ^ 2) gs, inr tt) /\
    (forall i, In i (param_refs gs) -> 0 <= i < 5 ^ 2) /\
    2 * Z.of_nat (length (parameters gs)) = 5 * (5 - 1) /\
    Z.of_nat (length (parameters gs)) < 5 ^ 2.
Proof. apply (parameter_references_within_declared_vector 5). lia. Defined.

End Parameters.

(** ** The base block (C7) *)
Section BaseBlock.

(** C7, as stated, fails: for [n = 3] the two copying CNOTs of the base
    block target qubits 3 and 4, not the last two qubits 7 and 8 of the
    9-qubit register. *)
Lemma base_block_targets_not_last_two_qubits :
  let r := base_circuit 3 (mkPV (3 ^ 2)) (mkQC (3 ^ 2) []) in
  snd r = inr tt /\
  last_two (cx_targets (data (fst r))) = [3; 4] /\
  last_two (cx_targets (data (fst r))) <> [3 ^ 2 - 2; 3 ^ 2 - 1] /\
  last_two (cx_targets (data (fst r))) <> [3 ^ 2 - 1; 3 ^ 2 - 2].
Proof. vm_compute. repeat split; discriminate. Qed.

(** C7, amended. For every [n >= 2] the first step of the construction
    emits exactly seven gates on qubits 0, 1, [n] and [n + 1]: one flip
    [X(0)], the pair [RY(theta[1])], [RY(-theta[1])] on qubit 1 bracketing
    [CZ(0, 1)], one CNOT [CX(1, 0)], and the two CNOTs [CX(1, n)] and
    [CX(0, n + 1)]. Their targets [n] and [n + 1] are the last two qubits
    [n^2 - 2], [n^2 - 1] of the register only for [n = 2]; for [n >= 3] they
    lie strictly below them. *)
Theorem base_block_gates (n : Z) (Hn : 2 <= n) :
  base_circuit n (mkPV (n ^ 2)) (mkQC (n ^ 2) [])
  = (mkQC (n ^ 2)
       [X 0; RY (Param 1) 1; CZ 0 1; RY (Neg (Param 1)) 1;
        CX 1 0; CX 1 n; CX 0 (n + 1)], inr tt) /\
  (exists rest,
     ansatz n = (mkQC (n ^ 2)
       ([X 0; RY (Param 1) 1; CZ 0 1; RY (Neg (Param 1)) 1;
         CX 1 0; CX 1 n; CX 0 (n + 1)] ++ rest), inr tt)) /\
  last_two (cx_targets
       [X 0; RY (Param 1) 1; CZ 0 1; RY (Neg (Param 1)) 1;
        CX 1 0; CX 1 n; CX 0 (n + 1)]) = [n; n + 1] /\
  ([n; n + 1] = [n ^ 2 - 2; n ^ 2 - 1] <-> n = 2) /\
  (3 <= n -> n + 1 < n ^ 2 - 2).
Proof.
  assert (Hsq : n ^ 2 = n * n) by apply Z.pow_2_r.
  split; [|split; [|split; [|split]]].
  - apply (emits_base_circuit n (n ^ 2) (n ^ 2)); nia.
  - eexists. rewrite ansatz_accepted by lia. unfold ansatz_gates, base_gates.
    reflexivity.
  - reflexivity.
  - split.
    + intros H. injection H as H _. nia.
    + intros ->. reflexivity.
  - nia.
Qed.

(** The theorem at the notebook's [n = 5]: targets 5 and 6 of 25 qubits. *)
Lemma base_block_gates_witness :
  base_circuit 5 (mkPV (5 ^ 2)) (mkQC (5 ^ 2) [])
  = (mkQC (5 ^ 2)
       [X 0; RY (Param 1) 1; CZ 0 1; RY (Neg (Param 1)) 1;
        CX 1 0; CX 1 5; CX 0 (5 + 1)], inr tt) /\
  (exists rest,
     ansatz 5 = (mkQC (5 ^ 2)
       ([X 0; RY (Param 1) 1; CZ 0 1; RY (Neg (Param 1)) 1;
         CX 1 0; CX 1 5; CX 0 (5 + 1)] ++ rest), inr tt)) /\
  last_two (cx_targets
       [X 0; RY (Param 1) 1; CZ 0 1; RY (Neg (Param 1)) 1;
        CX 1 0; CX 1 5; CX 0 (5 + 1)]) = [5; 5 + 1] /\
  ([5; 5 + 1] = [5 ^ 2 - 2; 5 ^ 2 - 1] <-> 5 = 2) /\
  (3 <= 5 -> 5 + 1 < 5 ^ 2 - 2).
Proof. apply (base_block_gates 5). lia. Defined.

End BaseBlock.

(** ** Rejection of a bad city count (C3) *)
Section Validation.

(** C3, as stated, fails: the construction has no check of [n]. For
    [n = -1] the flip [X(0)] is already on the circuit when [theta[1]]
    raises, and the positive [n = 1] fails in the same way. *)
Lemma invalid_n_not_rejected_before_emission :
  ansatz (-1) = (mkQC 1 [X 0], inl (ParamIndexError 1 1)) /\
  ansatz 1 = (mkQC 1 [X 0], inl (ParamIndexError 1 1)) /\
  ~ (forall n, (n <= 0 -> rejected_before_emission (ansatz n)) /\
               (0 < n -> accepted (ansatz n))).
Proof.
  split; [reflexivity|]. split; [reflexivity|].
  intros H. destruct (H 1) as [_ H1].
  specialize (H1 ltac:(lia)). discriminate H1.
Qed.

(** C3, amended. The construction does not check [n]. For every [n >= 2]
    it raises nothing; for [n = 0] the first gate is refused by the empty
    register, so nothing is emitted; for [n = 1] and [n = -1] the reference
    [theta[1]] raises after [X(0)] has been emitted. *)
Theorem construction_failure_modes (n : Z) (Hn : 2 <= n) :
  accepted (ansatz n) /\
  rejected_before_emission (ansatz 0) /\
  ansatz 0 = (mkQC 0 [], inl (QubitIndexOutOfRange 0 0)) /\
  ansatz 1 = (mkQC 1 [X 0], inl (ParamIndexError 1 1)) /\
  ansatz (-1) = (mkQC 1 [X 0], inl (ParamIndexError 1 1)).
Proof.
  split; [|split; [|repeat split]].
  - unfold accepted. now rewrite ansatz_accepted.
  - split; [eexists|]; reflexivity.
Qed.

Lemma construction_failure_modes_witness :
  accepted (ansatz 2) /\
  rejected_before_emission (ansatz 0) /\
  ansatz 0 = (mkQC 0 [], inl (QubitIndexOutOfRange 0 0)) /\
  ansatz 1 = (mkQC 1 [X 0], inl (ParamIndexError 1 1)) /\
  ansatz (-1) = (mkQC 1 [X 0], inl (ParamIndexError 1 1)).
Proof. apply (construction_failure_modes 2). lia. Defined.

(** Below [-1] nothing is refused either: a negative operand is resolved
    from the end of the register, and the loops are empty. *)
Lemma ansatz_negative_accepted n :
  n <= -2 ->
  ansatz n = (mkQC (n ^ 2)
                [X 0; RY (Param 1) 1; CZ 0 1; RY (Neg (Param 1)) 1;
                 CX 1 0; CX 1 (n ^ 2 + n); CX 0 (n ^ 2 + (n + 1));
                 MeasureAll], inr tt).
Proof.
  intros Hn. unfold ansatz, construct, swap_stage. cbv zeta.
  rewrite (range_nil 3 (n + 1)) by lia.
  assert (Hsq : n ^ 2 = n * n) by apply Z.pow_2_r.
  assert (Hcx : forall c t, 0 <= c < n ^ 2 -> - n ^ 2 <= t < 0 ->
            c <> n ^ 2 + t -> emits (n ^ 2) (cx c t) [CX c (n ^ 2 + t)]).
  { intros c t Hc Ht Hne d. unfold cx, bind, qubit. cbn [Ansatz.num_qubits].
    rewrite seq_index_nonneg, seq_index_neg by assumption.
    now rewrite distinct_2. }
  assert (Hempty : forall body : Z -> Build unit, emits (n ^ 2) (for_ [] body) []).
  { intros body d. simpl. unfold ret. now rewrite app_nil_r. }
  assert (H : emits (n ^ 2)
     (base_circuit n (mkPV (n ^ 2)) ;;
      for_ [] (fun i => W_circuit i (n * (i - 1)) (mkPV (n ^ 2))) ;;
      for_ [] (fun k => for_ (range 1 k) (fun v => for_ (range 1 k) (fun p =>
        cswap (n * (k - 1) + v - 1) (n * (p - 1) + n - (n - k) - 1)
              (n * (p - 1) + v - 1)))) ;;
      measure_all)%eff
     (([X 0] ++ [RY (Param 1) 1] ++ [CZ 0 1] ++ [RY (Neg (Param 1)) 1]
       ++ [CX 1 0] ++ [CX 1 (n ^ 2 + n)] ++ [CX 0 (n ^ 2 + (n + 1))])
      ++ [] ++ [] ++ [MeasureAll])).
  { unfold base_circuit.
    repeat apply emits_bind;
      first [ apply emits_x | apply emits_ry | apply emits_ry_neg
            | apply emits_cz | apply emits_cx | apply Hcx | apply Hempty
            | intros d; reflexivity ]; nia. }
  now rewrite (H []).
Qed.

End Validation.

(** ** The evaluation step *)

Lemma Hamiltonian_on_observables (b : Q) :
  Hamiltonian (inject_Z J) b observables = Some (ising_hamiltonian b).
Proof.
  unfold Hamiltonian, ising_hamiltonian, op_add, op_scale, observables; cbn.
  destruct (Qeq_bool b 0); reflexivity.
Qed.

(** Opens the body of the quantum loop at kernel state [k] and splits on
    the outcome of its call of [minimize]. *)
Ltac open_quantum_step k Hit :=
  unfold quantum_step; rewrite Hamiltonian_on_observables;
  cbv beta iota zeta; unfold minimize, bind;
  match goal with
  | |- context [iterate ?f ?m ?g ?l ?x0 k] =>
      destruct (iterate f m g l x0 k) as [?k1 [?e|?evals]] eqn:Hit
  end.

Section EvaluationStep.

Context {Circuit Observable EstimatorError : Type}.
Implicit Types (k : Kernel Circuit Observable) (x : params)
  (ansatz : Circuit) (h : Observable)
  (est : Estimator Circuit Observable EstimatorError).

(** A job that returns: the counter, the vector and the history are
    updated with the value, which is returned as it is. *)
Lemma cost_fn_returns x ansatz h est k v :
  est (submitted k) (mkPub ansatz [h] [x]) = inr v ->
  cost_fn x ansatz h est k
  = (mkKernel
       (mkDict (Some x) (iters (cost_history_dict k) + 1)
               (cost_history (cost_history_dict k) ++ [v]))
       (submitted k ++ [mkPub ansatz [h] [x]])
       (stdout k ++ [(iters (cost_history_dict k) + 1, v)])
       (ground_state_energies_simulator k)
       (ground_state_energies_hardware k),
     inr v).
Proof.
  intros H. unfold cost_fn, bind, estimator_run. rewrite H. reflexivity.
Qed.

(** A job that fails: the exception leaves the function, and the
    dictionary is as before. *)
Lemma cost_fn_raises x ansatz h est k e :
  est (submitted k) (mkPub ansatz [h] [x]) = inl e ->
  cost_fn x ansatz h est k
  = (mkKernel (cost_history_dict k)
       (submitted k ++ [mkPub ansatz [h] [x]])
       (stdout k)
       (ground_state_energies_simulator k)
       (ground_state_energies_hardware k),
     inl e).
Proof.
  intros H. unfold cost_fn, bind, estimator_run. rewrite H. reflexivity.
Qed.

Lemma evaluate_all_trace xs ansatz h est :
  forall k k' es,
    evaluate_all xs ansatz h est k = (k', inr es) ->
    iters (cost_history_dict k')
      = iters (cost_history_dict k) + Z.of_nat (length xs) /\
    cost_history (cost_history_dict k')
      = cost_history (cost_history_dict k) ++ es /\
    length es = length xs /\
    prev_vector (cost_history_dict k')
      = last (map Some xs) (prev_vector (cost_history_dict k)).
Proof.
  induction xs as [|x xs IH]; intros k k' es Hrun.
  - simpl in Hrun. unfold ret in Hrun. inversion Hrun; subst.
    rewrite app_nil_r. simpl. repeat split; lia.
  - cbn [evaluate_all] in Hrun. unfold bind at 1 in Hrun.
    destruct (est (submitted k) (mkPub ansatz [h] [x])) as [e|v] eqn:He.
    + rewrite (cost_fn_raises _ _ _ _ _ _ He) in Hrun. discriminate.
    + rewrite (cost_fn_returns _ _ _ _ _ _ He) in Hrun.
      unfold bind at 1 in Hrun.
      destruct (evaluate_all xs ansatz h est _) as [k1 [e|es1]] eqn:Hrest;
        [discriminate|].
      unfold ret in Hrun. inversion Hrun; subst.
      apply IH in Hrest as (Hi & Hh & Hl & Hp). cbn in Hi, Hh, Hp.
      rewrite Hi, Hh, Hp, <- app_assoc. simpl length.
      repeat split; try lia.
      cbn [map]. now rewrite last_cons_default.
Qed.

End EvaluationStep.

(** ** One run of the minimizer *)
Section MinimizerRun.

Context {Circuit Observable EstimatorError : Type}.
Variables (mz : Minimizer) (ansatz : Circuit) (h : Observable)
  (est : Estimator Circuit Observable EstimatorError).

Let job (x : params) : Pub Circuit Observable := mkPub ansatz [h] [x].
Let jobs (evals : list (params * energy)) : list (Pub Circuit Observable) :=
  map (fun xe => job (fst xe)) evals.

(** A run that returns made at least one evaluation, none of which
    failed; each one advanced the counter by one and appended its value. *)
Lemma iterate_returns fuel :
  forall evals x (k k' : Kernel Circuit Observable) evs,
    iterate fuel mz (fun y => cost_fn y ansatz h est) evals x k = (k', inr evs) ->
    exists new,
      evs = evals ++ new /\
      (1 <= length new <= S fuel)%nat /\
      iters (cost_history_dict k')
        = iters (cost_history_dict k) + Z.of_nat (length new) /\
      cost_history (cost_history_dict k')
        = cost_history (cost_history_dict k) ++ map snd new /\
      prev_vector (cost_history_dict k')
        = last (map (fun xe => Some (fst xe)) new)
               (prev_vector (cost_history_dict k)) /\
      submitted k' = submitted k ++ jobs new /\
      responses est (submitted k) (jobs new)
        = map (fun xe => inr (snd xe)) new /\
      ground_state_energies_simulator k' = ground_state_energies_simulator k /\
      ground_state_energies_hardware k' = ground_state_energies_hardware k.
Proof.
  unfold jobs, job.
  induction fuel as [|fuel IH]; intros evals x k k' evs Hrun;
    cbn [iterate] in Hrun; unfold bind at 1 in Hrun;
    destruct (est (submitted k) (mkPub ansatz [h] [x])) as [e|v] eqn:He;
    try (rewrite (cost_fn_raises _ _ _ _ _ _ He) in Hrun; discriminate);
    rewrite (cost_fn_returns _ _ _ _ _ _ He) in Hrun.
  - unfold ret in Hrun. inversion Hrun; subst. exists [(x, v)].
    cbn. rewrite He. repeat split; lia.
  - destruct (propose mz (evals ++ [(x, v)])) as [x'|].
    + apply IH in Hrun as (new & -> & Hlen & Hi & Hh & Hp & Hs & Hr & Hg1 & Hg2).
      cbn in Hi, Hh, Hp, Hs, Hr, Hg1, Hg2.
      exists ((x, v) :: new). cbn [length map responses fst snd].
      rewrite <- app_assoc, Hi, Hh, Hp, Hs, <- !app_assoc, Hg1, Hg2, He, Hr.
      rewrite last_cons_default.
      repeat split; lia.
    + unfold ret in Hrun. inversion Hrun; subst. exists [(x, v)].
      cbn. rewrite He. repeat split; lia.
Qed.

(** A run that raises stopped at a job on which the estimator failed, and
    raises that failure. *)
Lemma iterate_raises fuel :
  forall evals x (k k' : Kernel Circuit Observable) e,
    iterate fuel mz (fun y => cost_fn y ansatz h est) evals x k = (k', inl e) ->
    exists new y,
      submitted k' = submitted k ++ jobs new ++ [job y] /\
      est (submitted k ++ jobs new) (job y) = inl e /\
      cost_history (cost_history_dict k')
        = cost_history (cost_history_dict k) ++ map snd new /\
      iters (cost_history_dict k')
        = iters (cost_history_dict k) + Z.of_nat (length new).
Proof.
  unfold jobs, job.
  induction fuel as [|fuel IH]; intros evals x k k' e Hrun;
    cbn [iterate] in Hrun; unfold bind at 1 in Hrun;
    destruct (est (submitted k) (mkPub ansatz [h] [x])) as [e0|v] eqn:He.
  - rewrite (cost_fn_raises _ _ _ _ _ _ He) in Hrun. inversion Hrun; subst.
    exists [], x. cbn. rewrite !app_nil_r. repeat split; auto; lia.
  - rewrite (cost_fn_returns _ _ _ _ _ _ He) in Hrun. discriminate.
  - rewrite (cost_fn_raises _ _ _ _ _ _ He) in Hrun. inversion Hrun; subst.
    exists [], x. cbn. rewrite !app_nil_r. repeat split; auto; lia.
  - rewrite (cost_fn_returns _ _ _ _ _ _ He) in Hrun.
    destruct (propose mz (evals ++ [(x, v)])) as [x'|]; [|discriminate].
    apply IH in Hrun as (new & y & Hs & Hf & Hh & Hi).
    cbn in Hs, Hf, Hh, Hi.
    exists ((x, v) :: new), y. cbn [length map fst snd].
    rewrite <- !app_assoc in *. cbn [app] in *.
    rewrite Hs, Hf, Hh, Hi. repeat split; lia.
Qed.

(** The optimisation cell of the TSP notebook is one such run, of at most
    200 evaluations of [cost_func]. *)
Lemma tsp_run_is_minimize x0 :
  tsp_run mz ansatz h est x0
  = minimize mz (fun y => cost_fn y ansatz h est) x0 200.
Proof. reflexivity. Qed.

End MinimizerRun.

(** ** The cost trace within one run (C4) and the estimator's outcome (C6) *)
Section CostTrace.

Context {Circuit Observable EstimatorError : Type}.
Implicit Types (k : Kernel Circuit Observable) (x : params)
  (ansatz : Circuit) (h : Observable)
  (est : Estimator Circuit Observable EstimatorError).

(** C4, amended. After [k] calls of the cost function that all return (at
    the points [xs], [k = length xs]) the counter has advanced by [k] from
    its value before the first of them, exactly the [k] returned values
    have been appended to the history in call order, and the recorded
    vector is the one passed to the most recent call. The counter equals
    [k], and the history has exactly [k] entries, when the calls start from
    the dictionary as its cell creates it; this is so for the calls of one
    run of [minimize] that starts there. A further call whose job raises
    is a call made, but changes nothing in the dictionary: the counter
    counts the calls that returned since the dictionary was created. *)
Theorem cost_trace_after_k_calls xs ansatz h est k0 k1 es
    (Hcalls : evaluate_all xs ansatz h est k0 = (k1, inr es)) :
  let d0 := cost_history_dict k0 in
  let d1 := cost_history_dict k1 in
  length es = length xs /\
  iters d1 = iters d0 + Z.of_nat (length xs) /\
  cost_history d1 = cost_history d0 ++ es /\
  prev_vector d1 = last (map Some xs) (prev_vector d0) /\
  (d0 = cost_history_dict_init ->
   iters d1 = Z.of_nat (length xs) /\
   length (cost_history d1) = length xs /\
   cost_history d1 = es /\
   prev_vector d1 = last (map Some xs) None) /\
  (forall mz x0 maxiter k2 res,
     d0 = cost_history_dict_init ->
     minimize mz (fun y => cost_fn y ansatz h est) x0 maxiter k0 = (k2, inr res) ->
     exists evals,
       res = report mz evals /\
       (1 <= length evals)%nat /\
       iters (cost_history_dict k2) = Z.of_nat (length evals) /\
       cost_history (cost_history_dict k2) = map snd evals /\
       prev_vector (cost_history_dict k2)
         = last (map (fun xe => Some (fst xe)) evals) None) /\
  (forall x e,
     est (submitted k1) (mkPub ansatz [h] [x]) = inl e ->
     let r := cost_fn x ansatz h est k1 in
     snd r = inl e /\
     submitted (fst r) = submitted k1 ++ [mkPub ansatz [h] [x]] /\
     cost_history_dict (fst r) = d1).
Proof.
  intros d0 d1. subst d0 d1.
  apply evaluate_all_trace in Hcalls as (Hi & Hh & Hl & Hp).
  split; [exact Hl|]. split; [exact Hi|]. split; [exact Hh|].
  split; [exact Hp|]. split; [|split].
  - intros Hfresh. rewrite Hfresh in Hi, Hh, Hp. cbn in Hi, Hh, Hp.
    rewrite Hh, Hl. auto.
  - intros mz x0 maxiter k2 res Hfresh Hrun. unfold minimize, bind in Hrun.
    destruct (iterate _ mz _ [] x0 k0) as [k' [e|evals]] eqn:Hit;
      [discriminate|].
    unfold ret in Hrun. inversion Hrun; subst.
    apply iterate_returns in Hit
      as (new & -> & Hlen & Hi' & Hh' & Hp' & _).
    rewrite Hfresh in Hi', Hh', Hp'. cbn in Hi', Hh', Hp'.
    exists new. cbn [app]. repeat split; auto; lia.
  - intros x e He. cbv zeta. rewrite (cost_fn_raises _ _ _ _ _ _ He). cbn.
    auto.
Qed.

(** C6. The cost function submits exactly one job and its outcome is the
    estimator's outcome for that job, whatever it is: a failure is raised
    unchanged with the dictionary untouched, and any returned value,
    finite or not, is returned unchanged and is the value appended. A run
    of [minimize] that raises does so with the failure of its last job, and
    a run that returns had no failed job. *)
Theorem cost_fn_surfaces_estimator_outcome x ansatz h est k :
  let pub := mkPub ansatz [h] [x] in
  let r := cost_fn x ansatz h est k in
  snd r = est (submitted k) pub /\
  submitted (fst r) = submitted k ++ [pub] /\
  (forall e, est (submitted k) pub = inl e ->
     snd r = inl e /\ cost_history_dict (fst r) = cost_history_dict k) /\
  (forall v, est (submitted k) pub = inr v ->
     snd r = inr v /\
     cost_history (cost_history_dict (fst r))
       = cost_history (cost_history_dict k) ++ [v]) /\
  (forall mz maxiter k' e,
     minimize mz (fun y => cost_fn y ansatz h est) x maxiter k = (k', inl e) ->
     exists before last_job,
       submitted k' = submitted k ++ before ++ [last_job] /\
       est (submitted k ++ before) last_job = inl e) /\
  (forall mz maxiter k' res,
     minimize mz (fun y => cost_fn y ansatz h est) x maxiter k = (k', inr res) ->
     exists new,
       submitted k' = submitted k ++ new /\
       returned (responses est (submitted k) new)
         = skipn (length (cost_history (cost_history_dict k)))
                 (cost_history (cost_history_dict k')) /\
       length (returned (responses est (submitted k) new)) = length new).
Proof.
  intros pub r. subst pub r.
  destruct (est (submitted k) (mkPub ansatz [h] [x])) as [e|v] eqn:He.
  - rewrite (cost_fn_raises _ _ _ _ _ _ He). cbn.
    split; [reflexivity|]. split; [reflexivity|].
    split; [intros ? [= <-]; auto|]. split; [discriminate|].
    split.
    + intros mz maxiter k' e' Hrun. unfold minimize, bind in Hrun.
      destruct (iterate _ mz _ [] x k) as [k1 [e1|evals]] eqn:Hit;
        [|discriminate].
      inversion Hrun; subst.
      apply iterate_raises in Hit as (new & y & Hs & Hf & _). eauto.
    + intros mz maxiter k' res Hrun. exfalso. unfold minimize in Hrun.
      destruct (Z.to_nat (maxiter - 1)); cbn [iterate] in Hrun;
        unfold bind in Hrun;
        rewrite (cost_fn_raises _ _ _ _ _ _ He) in Hrun; discriminate.
  - rewrite (cost_fn_returns _ _ _ _ _ _ He). cbn.
    split; [reflexivity|]. split; [reflexivity|].
    split; [discriminate|]. split; [intros ? [= <-]; auto|].
    split.
    + intros mz maxiter k' e' Hrun. unfold minimize, bind in Hrun.
      destruct (iterate _ mz _ [] x k) as [k1 [e1|evals]] eqn:Hit;
        [|discriminate].
      inversion Hrun; subst.
      apply iterate_raises in Hit as (new & y & Hs & Hf & _). eauto.
    + intros mz maxiter k' res Hrun. unfold minimize, bind in Hrun.
      destruct (iterate _ mz _ [] x k) as [k1 [e1|evals]] eqn:Hit;
        [discriminate|].
      unfold ret in Hrun. inversion Hrun; subst.
      apply iterate_returns in Hit
        as (new & _ & _ & _ & Hh & _ & Hs & Hr & _).
      eexists. split; [exact Hs|]. rewrite Hr, Hh.
      rewrite skipn_app, skipn_all, Nat.sub_diag. cbn [app skipn].
      assert (Hret : forall l : list (params * energy),
                returned (map (fun xe => @inr EstimatorError _ (snd xe)) l)
                = map snd l).
      { induction l as [|a l IHl]; cbn; congruence. }
      rewrite Hret, !length_map. auto.
Qed.

End CostTrace.

(** C4, as stated, fails. On the small setup the second run of the Ising
    loop calls the cost function once, and the counter is 2 after that
    call, with two entries in the history; and a single call whose job
    fails leaves the counter at 0 and the history empty. *)
Lemma counter_is_not_the_calls_of_the_run :
  let s := example_setup in
  let start_of_run_1 := fst (quantum_runs s (range 0 1) kernel_init) in
  let end_of_run_1 := fst (quantum_step s 1 start_of_run_1) in
  let failed := fst (cost_fn [] tt tt (failing_estimator 7) kernel_init) in
  submitted end_of_run_1
    = submitted start_of_run_1 ++ [mkPub tt [ising_hamiltonian 1] [[]]] /\
  iters (cost_history_dict end_of_run_1) = 2 /\
  length (cost_history (cost_history_dict end_of_run_1)) = 2%nat /\
  length (submitted failed) = 1%nat /\
  iters (cost_history_dict failed) = 0 /\
  cost_history (cost_history_dict failed) = [] /\
  prev_vector (cost_history_dict failed) = None /\
  ~ (forall j k0 k1 calls,
       0 <= j < len b_list ->
       k0 = fst (quantum_runs s (range 0 j) kernel_init) ->
       k1 = fst (quantum_step s j k0) ->
       submitted k1 = submitted k0 ++ calls ->
       iters (cost_history_dict k1) = Z.of_nat (length calls) /\
       length (cost_history (cost_history_dict k1)) = length calls).
Proof.
  cbv zeta. repeat (split; [reflexivity|]).
  intros H.
  destruct (H 1 _ _ [mkPub tt [ising_hamiltonian 1] [[]]]
              ltac:(vm_compute; split; congruence) eq_refl eq_refl eq_refl)
    as [Hi _].
  vm_compute in Hi. discriminate Hi.
Qed.

(** C4 amended, on three calls against an estimator that always returns 1. *)
Lemma cost_trace_after_k_calls_witness :
  let k1 := fst (evaluate_all [[0%Q]; [1%Q]; [2%Q]] tt tt
                   (constant_estimator (E := unit) (Finite 1)) kernel_init) in
  iters (cost_history_dict k1) = 3 /\
  length (cost_history (cost_history_dict k1)) = 3%nat /\
  cost_history (cost_history_dict k1) = [Finite 1; Finite 1; Finite 1] /\
  prev_vector (cost_history_dict k1) = Some [2%Q].
Proof.
  intros k1.
  assert (Hcalls : evaluate_all [[0%Q]; [1%Q]; [2%Q]] tt tt
                     (constant_estimator (E := unit) (Finite 1)) kernel_init
                   = (k1, inr [Finite 1; Finite 1; Finite 1]))
    by (vm_compute; reflexivity).
  destruct (cost_trace_after_k_calls _ _ _ _ kernel_init k1 _ Hcalls)
    as (_ & _ & _ & _ & H & _).
  exact (H eq_refl).
Defined.

(** C6 on an estimator that returns NaN and on one that fails. *)
Lemma cost_fn_surfaces_estimator_outcome_witness :
  snd (cost_fn [] tt tt (constant_estimator (E := Z) NaN) kernel_init)
    = inr NaN /\
  snd (cost_fn [] tt tt (failing_estimator 7) kernel_init) = inl 7.
Proof.
  split.
  - destruct (cost_fn_surfaces_estimator_outcome [] tt tt
                (constant_estimator (E := Z) NaN) kernel_init)
      as (_ & _ & _ & H & _).
    apply (H NaN). reflexivity.
  - destruct (cost_fn_surfaces_estimator_outcome [] tt tt
                (failing_estimator 7) kernel_init)
      as (_ & _ & H & _).
    apply (H 7). reflexivity.
Defined.

(** ** The cost trace across the runs of the Ising loop (C5) *)
Section AcrossRuns.

Context {Circuit Observable EstimatorError : Type}.
Implicit Types (k : Kernel Circuit Observable)
  (s : Setup Circuit Observable EstimatorError).

Lemma responses_snoc {E} (est : Estimator Circuit Observable E) l :
  forall seen p,
    responses est seen (l ++ [p])
    = responses est seen l ++ [est (seen ++ l) p].
Proof.
  induction l as [|q l IH]; intros seen p; cbn.
  - now rewrite app_nil_r.
  - now rewrite IH, <- app_assoc.
Qed.

Lemma returned_app {E} (a b : list (E + energy)) :
  returned (a ++ b) = returned a ++ returned b.
Proof.
  induction a as [|[e|v] a IH]; cbn; congruence.
Qed.

Lemma cost_fn_faithful {E} x (a : Circuit) (h : Observable)
    (est : Estimator Circuit Observable E) k :
  trace_faithful est k -> trace_faithful est (fst (cost_fn x a h est k)).
Proof.
  intros [Hh Hi]. unfold trace_faithful.
  destruct (est (submitted k) (mkPub a [h] [x])) as [e|v] eqn:He.
  - rewrite (cost_fn_raises _ _ _ _ _ _ He). cbn.
    rewrite responses_snoc, returned_app. cbn. rewrite He. cbn.
    now rewrite app_nil_r.
  - rewrite (cost_fn_returns _ _ _ _ _ _ He). cbn.
    rewrite responses_snoc, returned_app. cbn. rewrite He. cbn.
    rewrite Hh at 1. split; [reflexivity|].
    rewrite length_app, Nat2Z.inj_add. cbn. lia.
Qed.

Lemma iterate_faithful {E} mz (a : Circuit) (h : Observable)
    (est : Estimator Circuit Observable E) fuel :
  forall evals x k,
    trace_faithful est k ->
    trace_faithful est
      (fst (iterate fuel mz (fun y => cost_fn y a h est) evals x k)).
Proof.
  induction fuel as [|fuel IH]; intros evals x k Hk;
    cbn [iterate]; unfold bind at 1;
    pose proof (cost_fn_faithful x a h est k Hk) as H1;
    destruct (cost_fn x a h est k) as [k1 [e|v]]; cbn [fst] in *; auto.
  destruct (propose mz (evals ++ [(x, v)])); cbn; auto.
Qed.

Lemma quantum_step_faithful s b k :
  trace_faithful (estimator s) k ->
  trace_faithful (estimator s) (fst (quantum_step s b k)).
Proof.
  intros Hk.
  pose proof (iterate_faithful (minimizer s) (isa_ansatz s)
                (apply_layout s (ising_hamiltonian (inject_Z b)))
                (estimator s) (Z.to_nat (100 - 1)) [] (initial_point s b)
                k Hk) as H1.
  open_quantum_step k Hit; cbn [fst] in *; auto.
  unfold ret, append_result, modify.
  destruct (run_target s); exact H1.
Qed.

Lemma quantum_runs_faithful s bs :
  forall k, trace_faithful (estimator s) k ->
            trace_faithful (estimator s) (fst (quantum_runs s bs k)).
Proof.
  unfold quantum_runs.
  induction bs as [|b bs IH]; intros k Hk; cbn [for_]; [exact Hk|].
  unfold bind. pose proof (quantum_step_faithful s b k Hk) as H1.
  destruct (quantum_step s b k) as [k1 [e|[]]]; cbn [fst] in *; auto.
Qed.

(** A step of the loop only appends to the history, and a step that
    completes has appended at least one value. *)
Lemma quantum_step_appends s b k :
  exists new,
    cost_history (cost_history_dict (fst (quantum_step s b k)))
      = cost_history (cost_history_dict k) ++ new /\
    iters (cost_history_dict (fst (quantum_step s b k)))
      = iters (cost_history_dict k) + Z.of_nat (length new) /\
    (snd (quantum_step s b k) = inr tt -> (1 <= length new)%nat).
Proof.
  open_quantum_step k Hit.
  - apply iterate_raises in Hit as (new & y & _ & _ & Hh & Hi).
    exists (map snd new). cbn [fst snd]. rewrite length_map.
    repeat split; auto. discriminate.
  - apply iterate_returns in Hit as (new & _ & Hlen & Hi & Hh & _).
    exists (map snd new). rewrite length_map.
    unfold ret, append_result, modify.
    destruct (run_target s); cbn; repeat split; auto; lia.
Qed.

Lemma quantum_runs_accumulate s bs :
  forall k,
    (exists new,
       cost_history (cost_history_dict (fst (quantum_runs s bs k)))
       = cost_history (cost_history_dict k) ++ new) /\
    (snd (quantum_runs s bs k) = inr tt ->
     iters (cost_history_dict k) + Z.of_nat (length bs)
     <= iters (cost_history_dict (fst (quantum_runs s bs k)))).
Proof.
  unfold quantum_runs.
  induction bs as [|b bs IH]; intros k; cbn [for_].
  - cbn. split; [exists []; now rewrite app_nil_r|lia].
  - unfold bind.
    destruct (quantum_step_appends s b k) as (new & Hh & Hi & Hlen).
    destruct (quantum_step s b k) as [k1 [e|[]]]; cbn [fst snd] in *.
    + split; [eauto|discriminate].
    + destruct (IH k1) as [(new1 & Hh1) Hi1]. split.
      * exists (new ++ new1). now rewrite Hh1, Hh, app_assoc.
      * intros Hok. specialize (Hi1 Hok). specialize (Hlen eq_refl).
        cbn [length]. lia.
Qed.

End AcrossRuns.

Section RunsOfTheLoop.

Context {Circuit Observable EstimatorError : Type}.

(** C5, amended. The dictionary is created once and the loop over the
    field values never resets it. The kernel state at the start of run [j]
    is the one left by runs [0 .. j-1]; there the history is exactly the
    sequence of values returned by the estimator so far and the counter is
    its length (only the evaluation step changes them, once per returned
    job); every run only appends to the history; after [j] completed runs
    the counter is at least [j], so it is zero and the history empty only
    at the start of the first run. *)
Theorem cost_trace_persists_across_runs
    (s : Setup Circuit Observable EstimatorError) (j : Z)
    (Hj : 0 <= j <= len b_list) :
  let start_of_run := quantum_runs s (range 0 j) kernel_init in
  quantum_loop s kernel_init
    = bind (quantum_runs s (range 0 j))
           (fun _ => quantum_runs s (range j (len b_list))) kernel_init /\
  trace_faithful (estimator s) (fst start_of_run) /\
  (snd start_of_run = inr tt ->
   j <= iters (cost_history_dict (fst start_of_run)) /\
   (1 <= j -> cost_history (cost_history_dict (fst start_of_run)) <> [])) /\
  (forall b k, exists new,
     cost_history (cost_history_dict (fst (quantum_step s b k)))
     = cost_history (cost_history_dict k) ++ new) /\
  cost_history_dict (fst (quantum_runs s (range 0 0) kernel_init))
    = cost_history_dict_init.
Proof.
  intros start_of_run. subst start_of_run.
  split; [|split; [|split; [|split]]].
  - unfold quantum_loop, quantum_runs.
    replace (len b_list) with (j + Z.of_nat (Z.to_nat (len b_list - j))) by lia.
    rewrite (range_app 0 j) by lia. apply for_app.
  - apply quantum_runs_faithful. split; reflexivity.
  - intros Hok.
    pose proof (quantum_runs_faithful s (range 0 j) kernel_init
                  ltac:(split; reflexivity)) as [_ Hi].
    destruct (quantum_runs_accumulate s (range 0 j) kernel_init) as [_ Hacc].
    specialize (Hacc Hok). rewrite length_range in Hacc. cbn in Hacc.
    split; [lia|].
    intros H1 Hnil. rewrite Hnil in Hi. cbn in Hi. lia.
  - intros b k. destruct (quantum_step_appends s b k) as (new & H & _).
    eauto.
  - reflexivity.
Qed.

End RunsOfTheLoop.

(** C5, as stated, fails: with an estimator that always returns 0 and a
    minimizer that stops after evaluating the initial point, the second
    run of the loop starts with the counter at 1 and one value in the
    history. *)
Lemma cost_trace_not_reset_between_runs :
  let start_of_run_1 := quantum_runs example_setup (range 0 1) kernel_init in
  snd start_of_run_1 = inr tt /\
  iters (cost_history_dict (fst start_of_run_1)) = 1 /\
  cost_history (cost_history_dict (fst start_of_run_1)) = [Finite 0] /\
  ~ (forall j, 0 <= j < len b_list ->
       let d := cost_history_dict
                  (fst (quantum_runs example_setup (range 0 j) kernel_init)) in
       iters d = 0 /\ cost_history d = []).
Proof.
  cbv zeta. split; [reflexivity|]. split; [reflexivity|].
  split; [reflexivity|].
  intros H. destruct (H 1 ltac:(vm_compute; split; congruence)) as [Hi _].
  vm_compute in Hi. discriminate Hi.
Qed.

(** C5 amended, at the start of the third run of the example setup. *)
Lemma cost_trace_persists_across_runs_witness :
  2 <= iters (cost_history_dict
                (fst (quantum_runs example_setup (range 0 2) kernel_init))).
Proof.
  destruct (cost_trace_persists_across_runs example_setup 2
              ltac:(vm_compute; split; congruence))
    as (_ & _ & H & _).
  apply H. reflexivity.
Defined.

(** ** The field value handed to [Hamiltonian] (C10) *)
Section FieldArgument.

Lemma classical_runs_spec {Spectrum} (eig : Matrix -> Spectrum) bs :
  forall acc,
    classical_runs Spectrum eig bs acc
    = Some (acc ++ map (fun b => eig (to_matrix (ising_hamiltonian (inject_Z b))))
                       bs).
Proof.
  induction bs as [|b bs IH]; intros acc; cbn [classical_runs map].
  - now rewrite app_nil_r.
  - rewrite Hamiltonian_on_observables, IH, <- app_assoc. reflexivity.
Qed.

Context {Circuit Observable EstimatorError : Type}.
Implicit Types (k : Kernel Circuit Observable)
  (s : Setup Circuit Observable EstimatorError).




End FieldArgument.


(** ** The ground-state energy at [J = 1], [b = 0] (first half of C8) *)
Section GroundState.
Local Open Scope Q_scope.

(** [Hamiltonian(1, 0, observables)] is [-1 * ZZ] (the field part is the
    identity term with coefficient 0); its matrix is [diag(-1, 1, 1, -1)];
    [-1] is an eigenvalue (eigenvector [|00>]); every eigenvalue is [-1] or
    [1]; and the energy [<v|H|v>] of any real vector is at least
    [-1 * <v|v>]. So the minimum eigenvalue is [-1]. *)
Lemma ising_ground_energy_J1_b0 :
  exists H,
    Hamiltonian 1 0 observables = Some H /\
    H = [([PZ; PZ], -1); ([PI; PI], 0)] /\
    to_matrix H = [[-1; 0; 0; 0]; [0; 1; 0; 0]; [0; 0; 1; 0]; [0; 0; 0; -1]] /\
    Forall2 Qeq (mat_vec (to_matrix H) [1; 0; 0; 0])
                (map (Qmult (-1)) [1; 0; 0; 0]) /\
    (forall lam a b c d,
       Forall2 Qeq (mat_vec (to_matrix H) [a; b; c; d])
                   (map (Qmult lam) [a; b; c; d]) ->
       ~ (a == 0 /\ b == 0 /\ c == 0 /\ d == 0) ->
       lam == -1 \/ lam == 1) /\
    (forall a b c d,
       -1 * dot [a; b; c; d] [a; b; c; d]
       <= dot [a; b; c; d] (mat_vec (to_matrix H) [a; b; c; d])).
Proof.
  eexists. split; [reflexivity|]. split; [reflexivity|].
  split; [reflexivity|]. split; [repeat constructor|].
  split.
  - intros lam a b c d Heig Hnz.
    change (to_matrix _) with
      [[-1; 0; 0; 0]; [0; 1; 0; 0]; [0; 0; 1; 0]; [0; 0; 0; -1]] in Heig.
    cbn in Heig.
    inversion Heig as [|? ? ? ? Ha Heig1]; subst; clear Heig.
    inversion Heig1 as [|? ? ? ? Hb Heig2]; subst; clear Heig1.
    inversion Heig2 as [|? ? ? ? Hc Heig3]; subst; clear Heig2.
    inversion Heig3 as [|? ? ? ? Hd _]; subst; clear Heig3.
    assert (Ha' : (lam + 1) * a == 0) by (ring_simplify; rewrite <- Ha; ring).
    assert (Hb' : (lam - 1) * b == 0) by (ring_simplify; rewrite <- Hb; ring).
    assert (Hc' : (lam - 1) * c == 0) by (ring_simplify; rewrite <- Hc; ring).
    assert (Hd' : (lam + 1) * d == 0) by (ring_simplify; rewrite <- Hd; ring).
    apply Qmult_integral in Ha', Hb', Hc', Hd'.
    destruct Ha' as [Ha'|Ha']; [left; lra|].
    destruct Hd' as [Hd'|Hd']; [left; lra|].
    destruct Hb' as [Hb'|Hb']; [right; lra|].
    destruct Hc' as [Hc'|Hc']; [right; lra|].
    exfalso. apply Hnz. auto.
  - intros a b c d.
    change (to_matrix _) with
      [[-1; 0; 0; 0]; [0; 1; 0; 0]; [0; 0; 1; 0]; [0; 0; 0; -1]].
    cbn. nra.
Qed.

End GroundState.

(** * Further properties of the notebooks' code *)

(** ** The drawn route *)
Section RouteFacts.

Context {Weight : Type}.
Implicit Types (G : Tour.Graph Weight) (order : list Z)
  (g : Tour.DiGraph Weight).

Lemma route_getitem order i g :
  0 <= i < Z.of_nat (length order) ->
  Tour.getitem order i g = (g, inr (nth (Z.to_nat i) order 0)).
Proof.
  intros H. unfold Tour.getitem. rewrite seq_index_nonneg by lia.
  destruct (nth_error order (Z.to_nat i)) as [c|] eqn:E.
  - now rewrite (nth_error_nth _ _ 0 E).
  - apply nth_error_None in E. lia.
Qed.

(** One iteration: the leg's weight is looked up, and the edge is added
    only if the lookup succeeds. *)
Lemma route_step G order i g :
  0 <= i < Z.of_nat (length order) ->
  Tour.add_leg G order (Z.of_nat (length order)) i g
  = match Tour.weight G (fst (Tour.leg order i)) (snd (Tour.leg order i)) with
    | Some w =>
        (Tour.mkDiGraph
           (Tour.add_node (snd (Tour.leg order i))
              (Tour.add_node (fst (Tour.leg order i)) (Tour.di_nodes g)))
           (Tour.set_edge (fst (Tour.leg order i)) (snd (Tour.leg order i)) w
              (Tour.di_edges g)),
         inr tt)
    | None =>
        (g, inl (Tour.KeyError (fst (Tour.leg order i))
                               (snd (Tour.leg order i))))
    end.
Proof.
  intros Hi. unfold Tour.add_leg. cbv zeta.
  assert (Hj : 0 <= (i + 1) mod Z.of_nat (length order)
               < Z.of_nat (length order)) by (apply Z.mod_pos_bound; lia).
  unfold bind. rewrite !route_getitem by assumption.
  unfold Tour.edge_weight, Tour.leg. cbn [fst snd].
  destruct (Tour.weight G _ _); reflexivity.
Qed.

Lemma route_loop_outcome G order (l : list Z) :
  (forall i, In i l -> 0 <= i < Z.of_nat (length order)) ->
  forall g,
    (snd (for_ l (Tour.add_leg G order (Z.of_nat (length order))) g) = inr tt
     /\ (forall i, In i l ->
           Tour.weight G (fst (Tour.leg order i)) (snd (Tour.leg order i))
           <> None))
    \/
    (exists i, In i l /\
       Tour.weight G (fst (Tour.leg order i)) (snd (Tour.leg order i)) = None /\
       snd (for_ l (Tour.add_leg G order (Z.of_nat (length order))) g)
       = inl (Tour.KeyError (fst (Tour.leg order i)) (snd (Tour.leg order i)))).
Proof.
  induction l as [|i l IH]; intros Hl g.
  - left. split; [reflexivity|]. intros i [].
  - cbn [for_]. unfold bind.
    rewrite (route_step G order i g) by (apply Hl; now left).
    destruct (Tour.weight G _ _) as [w|] eqn:Hw.
    + destruct (IH (fun j Hj => Hl j (or_intror Hj))
                  (Tour.mkDiGraph
                     (Tour.add_node (snd (Tour.leg order i))
                        (Tour.add_node (fst (Tour.leg order i))
                           (Tour.di_nodes g)))
                     (Tour.set_edge (fst (Tour.leg order i))
                        (snd (Tour.leg order i)) w (Tour.di_edges g))))
        as [[Hok Hall]|(j & Hj & Hnone & Hfail)].
      * left. split; [exact Hok|].
        intros j [<-|Hj]; [congruence|now apply Hall].
      * right. exists j. split; [now right|]. split; assumption.
    + right. exists i. split; [now left|]. split; [assumption|reflexivity].
Qed.

Lemma range_cons (a b : Z) : a < b -> range a b = a :: range (a + 1) b.
Proof.
  intros H. unfold range.
  replace (Z.to_nat (b - a)) with (S (Z.to_nat (b - (a + 1)))) by lia.
  cbn [seq map]. f_equal; [lia|].
  rewrite <- seq_shift, map_map. apply map_ext. intros i. lia.
Qed.

(** The loop stops at the first leg that is missing. *)
Lemma route_loop_first_missing G order (l1 l2 : list Z) i :
  (forall j, In j (l1 ++ i :: l2) -> 0 <= j < Z.of_nat (length order)) ->
  (forall j, In j l1 ->
     Tour.weight G (fst (Tour.leg order j)) (snd (Tour.leg order j)) <> None) ->
  Tour.weight G (fst (Tour.leg order i)) (snd (Tour.leg order i)) = None ->
  forall g,
    snd (for_ (l1 ++ i :: l2)
           (Tour.add_leg G order (Z.of_nat (length order))) g)
    = inl (Tour.KeyError (fst (Tour.leg order i)) (snd (Tour.leg order i))).
Proof.
  intros Hl Hl1 Hi. induction l1 as [|j l1 IH]; intros g; cbn [app for_];
    unfold bind.
  - rewrite (route_step G order i g) by (apply Hl; now left).
    now rewrite Hi.
  - rewrite (route_step G order j g) by (apply Hl; now left).
    destruct (Tour.weight G (fst (Tour.leg order j)) (snd (Tour.leg order j)))
      as [w|] eqn:Hw; [|exfalso; apply (Hl1 j); [now left|exact Hw]].
    apply IH.
    + intros j' Hj'. apply Hl. now right.
    + intros j' Hj'. apply Hl1. now right.
Qed.

(** X1. For a route given as a list of city indices,
    [draw_tsp_solution] reaches its drawing calls exactly when every leg
    of the closed route, the one from the last city back to the first
    included, is a weighted edge of [G]; the call then ends as the drawing
    calls do on the graph built, so it returns exactly when moreover they
    return. Otherwise it raises the [KeyError] of the first missing leg
    and makes no drawing call. The empty route has no leg: the drawing
    calls get the nodes of [G] and no edge; a route of one city needs the
    self-loop of that city. *)
Theorem draw_route_reaches_drawing_iff_legs_exist
    {DrawingError : Type}
    (drawing : Tour.DiGraph Weight -> option DrawingError) G order :
  let n := Z.of_nat (length order) in
  let leg_weight i :=
    Tour.weight G (fst (Tour.leg order i)) (snd (Tour.leg order i)) in
  let out := Tour.draw_tsp_solution_call drawing G order in
  ((exists g2, fst out = Some g2) <->
   forall i, 0 <= i < n -> leg_weight i <> None) /\
  (forall g2, fst out = Some g2 ->
     Tour.draw_tsp_solution G order = (g2, inr tt) /\
     snd out = match drawing g2 with
               | Some e => inl (Tour.InDrawing e)
               | None => inr tt
               end) /\
  (snd out = inr tt <->
   (forall i, 0 <= i < n -> leg_weight i <> None) /\
   exists g2, fst out = Some g2 /\ drawing g2 = None) /\
  (forall i, 0 <= i < n ->
     leg_weight i = None ->
     (forall j, 0 <= j < i -> leg_weight j <> None) ->
     out = (None, inl (Tour.InLoop
                         (Tour.KeyError (fst (Tour.leg order i))
                                        (snd (Tour.leg order i)))))) /\
  Tour.draw_tsp_solution_call drawing G []
  = (Some (Tour.mkDiGraph (Tour.nodes G) []),
     match drawing (Tour.mkDiGraph (Tour.nodes G) []) with
     | Some e => inl (Tour.InDrawing e)
     | None => inr tt
     end) /\
  (forall c, Tour.weight G c c = None ->
     Tour.draw_tsp_solution_call drawing G [c]
     = (None, inl (Tour.InLoop (Tour.KeyError c c)))).
Proof.
  intros n leg_weight out. subst n leg_weight out.
  assert (Hone : forall c, Tour.weight G c c = None ->
     Tour.draw_tsp_solution_call drawing G [c]
     = (None, inl (Tour.InLoop (Tour.KeyError c c)))).
  { intros c Hc.
    unfold Tour.draw_tsp_solution_call, Tour.draw_tsp_solution,
      Tour.route_edges.
    cbv zeta. change (range 0 (Z.of_nat (length [c]))) with [0]. cbn [for_].
    unfold bind. rewrite (route_step G [c] 0) by (cbn; lia).
    unfold Tour.leg. cbn. rewrite Hc. reflexivity. }
  assert (Hfirst : forall i, 0 <= i < Z.of_nat (length order) ->
     Tour.weight G (fst (Tour.leg order i)) (snd (Tour.leg order i)) = None ->
     (forall j, 0 <= j < i ->
        Tour.weight G (fst (Tour.leg order j)) (snd (Tour.leg order j))
        <> None) ->
     Tour.draw_tsp_solution_call drawing G order
     = (None, inl (Tour.InLoop
                     (Tour.KeyError (fst (Tour.leg order i))
                                    (snd (Tour.leg order i)))))).
  { intros i Hi Hnone Hbefore.
    unfold Tour.draw_tsp_solution_call, Tour.draw_tsp_solution,
      Tour.route_edges. cbv zeta.
    pose proof (route_loop_first_missing G order (range 0 i)
                  (range (i + 1) (Z.of_nat (length order))) i) as Hloop.
    assert (Hsplit : range 0 (Z.of_nat (length order))
                     = range 0 i ++ i :: range (i + 1) (Z.of_nat (length order))).
    { replace (Z.of_nat (length order))
        with (i + Z.of_nat (Z.to_nat (Z.of_nat (length order) - i))) at 1
        by lia.
      rewrite (range_app 0 i) by lia.
      replace (i + Z.of_nat (Z.to_nat (Z.of_nat (length order) - i)))
        with (Z.of_nat (length order)) by lia.
      now rewrite (range_cons i) by lia. }
    rewrite <- Hsplit in Hloop.
    specialize (Hloop (fun j Hj => proj1 (in_range _ _ _) Hj)
                      (fun j Hj => Hbefore j (proj1 (in_range _ _ _) Hj))
                      Hnone (Tour.mkDiGraph (Tour.nodes G) [])).
    destruct (for_ _ _ _) as [g' r]. cbn [snd] in Hloop. now subst r. }
  split; [|split; [|split; [|split; [exact Hfirst|split; [reflexivity|exact Hone]]]]].
  all: unfold Tour.draw_tsp_solution_call, Tour.draw_tsp_solution,
         Tour.route_edges in *; cbv zeta.
  all: destruct (route_loop_outcome G order (range 0 (Z.of_nat (length order)))
              (fun i Hi => proj1 (in_range _ _ _) Hi)
              (Tour.mkDiGraph (Tour.nodes G) []))
    as [[Hok Hall]|(j & Hj & Hnone & Hfail)].
  all: destruct (for_ (range 0 (Z.of_nat (length order))) _ _)
         as [g2 [e|[]]] eqn:Hrun; cbn [fst snd] in *; try discriminate.
  - split; [|eauto]. intros _ i Hi. apply Hall. now apply in_range.
  - apply in_range in Hj. split.
    + intros [g2' Hg2]. discriminate.
    + intros Hall. exfalso. now apply (Hall j).
  - intros g2' [= <-]. split; reflexivity.
  - split.
    + intros Hret. split.
      * intros i Hi. apply Hall. now apply in_range.
      * exists g2. split; [reflexivity|].
        destruct (drawing g2); [discriminate|reflexivity].
    + intros (_ & g2' & [= <-] & Hd). now rewrite Hd.
  - apply in_range in Hj. split; [discriminate|].
    intros (Hall & _). exfalso. now apply (Hall j).
Qed.

End RouteFacts.

Section ClosedRoute.

Context {Weight : Type}.
Implicit Types (G : Tour.Graph Weight) (order : list Z)
  (g : Tour.DiGraph Weight).

Lemma set_edge_fresh u v (w : Weight) es :
  (forall e, In e es -> fst (fst e) <> u) ->
  Tour.set_edge u v w es = es ++ [((u, v), w)].
Proof.
  induction es as [|[[u' v'] w'] es IH]; intros Hfresh; cbn; [reflexivity|].
  assert (u <> u')
    by (intros ->; apply (Hfresh ((u', v'), w')); [now left|reflexivity]).
  destruct (Z.eqb_spec u u'); [contradiction|]. cbn.
  f_equal. apply IH. intros e He. apply Hfresh. now right.
Qed.

Lemma map_nth_seq (l : list Z) (s : nat) :
  map (fun i => nth (i - s) l 0) (seq s (length l)) = l.
Proof.
  revert s. induction l as [|a l IH]; intros s; [reflexivity|].
  cbn [length seq map]. rewrite Nat.sub_diag. cbn [nth]. f_equal.
  rewrite <- (IH (S s)) at 2. apply map_ext_in.
  intros i Hi. apply in_seq in Hi.
  replace (i - s)%nat with (S (i - S s)) by lia. reflexivity.
Qed.

Lemma map_nth_range (l : list Z) :
  map (fun i => nth (Z.to_nat i) l 0) (range 0 (Z.of_nat (length l))) = l.
Proof.
  unfold range. rewrite map_map, Z.sub_0_r, Nat2Z.id.
  rewrite <- (map_nth_seq l 0) at 2. apply map_ext.
  intros i. f_equal. lia.
Qed.

(** The successors along the closed route: the tail, then the first city. *)
Lemma map_successor_range (l : list Z) :
  map (fun i => nth (Z.to_nat ((i + 1) mod Z.of_nat (length l))) l 0)
      (range 0 (Z.of_nat (length l)))
  = tl l ++ firstn 1 l.
Proof.
  destruct l as [|c l]; [reflexivity|].
  cbn [tl firstn]. cbn [length]. rewrite Nat2Z.inj_succ.
  replace (Z.succ (Z.of_nat (length l))) with (Z.of_nat (length l) + 1) by lia.
  rewrite range_snoc, map_app by lia. cbn [map].
  rewrite Z_mod_same_full. cbn [Z.to_nat nth]. f_equal.
  rewrite <- (map_nth_range l) at 2. apply map_ext_in.
  intros i Hi. apply in_range in Hi.
  rewrite Z.mod_small by lia.
  replace (Z.to_nat (i + 1)) with (S (Z.to_nat i)) by lia. reflexivity.
Qed.

Lemma route_loop_edges G order (wt : Z -> Weight) (l : list Z) :
  NoDup order ->
  (forall i, In i l -> 0 <= i < Z.of_nat (length order)) ->
  (forall i, In i l ->
     Tour.weight G (fst (Tour.leg order i)) (snd (Tour.leg order i))
     = Some (wt i)) ->
  NoDup l ->
  forall g,
    (forall i e, In i l -> In e (Tour.di_edges g) ->
                 fst (fst e) <> nth (Z.to_nat i) order 0) ->
    exists g',
      for_ l (Tour.add_leg G order (Z.of_nat (length order))) g = (g', inr tt) /\
      Tour.di_edges g'
      = Tour.di_edges g ++ map (fun i => (Tour.leg order i, wt i)) l.
Proof.
  intros Hnd. induction l as [|i l IH]; intros Hl Hw Hndl g Hfresh.
  - exists g. split; [reflexivity|]. cbn. now rewrite app_nil_r.
  - cbn [for_]. unfold bind.
    rewrite (route_step G order i g) by (apply Hl; now left).
    rewrite (Hw i) by now left.
    inversion Hndl as [|? ? Hni Hndl']; subst.
    assert (Hset : Tour.set_edge (fst (Tour.leg order i))
                     (snd (Tour.leg order i)) (wt i) (Tour.di_edges g)
                   = Tour.di_edges g ++ [(Tour.leg order i, wt i)]).
    { rewrite set_edge_fresh; [destruct (Tour.leg order i); reflexivity|].
      intros e He. unfold Tour.leg. cbn [fst].
      apply (Hfresh i e); [now left|assumption]. }
    rewrite Hset.
    destruct (IH (fun j Hj => Hl j (or_intror Hj))
                 (fun j Hj => Hw j (or_intror Hj)) Hndl'
                 (Tour.mkDiGraph
                    (Tour.add_node (snd (Tour.leg order i))
                       (Tour.add_node (fst (Tour.leg order i))
                          (Tour.di_nodes g)))
                    (Tour.di_edges g ++ [(Tour.leg order i, wt i)])))
      as (g' & Hrun & Hedges).
    + cbn [Tour.di_edges]. intros j e Hj He.
      apply in_app_or in He as [He|[<-|[]]].
      * apply (Hfresh j e); [now right|assumption].
      * unfold Tour.leg. cbn [fst]. intros Heq.
        assert (Hi := Hl i (or_introl eq_refl)).
        assert (Hj' := Hl j (or_intror Hj)).
        apply (proj1 (NoDup_nth order 0) Hnd) in Heq; try lia.
        apply Hni. replace i with j by lia. exact Hj.
    + exists g'. split; [exact Hrun|]. rewrite Hedges. cbn [Tour.di_edges].
      now rewrite <- app_assoc.
Qed.

(** X2. For a route that visits no city twice and whose legs are all
    weighted edges of [G], [draw_tsp_solution] builds one directed edge per
    leg, in route order: the edges leave the cities in the order of the
    route, each entering the next city and the last one entering the first,
    with the weights read from [G]. So the drawn graph has as many edges as
    the route has cities, and every city of the route has exactly one edge
    out and one edge in. *)
Theorem draw_route_is_closed_tour G order (wt : Z -> Weight)
    (Hnd : NoDup order)
    (Hlegs : forall i, 0 <= i < Z.of_nat (length order) ->
       Tour.weight G (fst (Tour.leg order i)) (snd (Tour.leg order i))
       = Some (wt i)) :
  exists g,
    Tour.draw_tsp_solution G order = (g, inr tt) /\
    Tour.di_edges g
    = map (fun i => (Tour.leg order i, wt i))
          (range 0 (Z.of_nat (length order))) /\
    length (Tour.di_edges g) = length order /\
    map (fun e => fst (fst e)) (Tour.di_edges g) = order /\
    map (fun e => snd (fst e)) (Tour.di_edges g) = tl order ++ firstn 1 order /\
    (forall c, In c order ->
       count_occ Z.eq_dec (map (fun e => fst (fst e)) (Tour.di_edges g)) c
       = 1%nat /\
       count_occ Z.eq_dec (map (fun e => snd (fst e)) (Tour.di_edges g)) c
       = 1%nat).
Proof.
  unfold Tour.draw_tsp_solution, Tour.route_edges. cbv zeta.
  destruct (route_loop_edges G order wt (range 0 (Z.of_nat (length order)))
              Hnd (fun i Hi => proj1 (in_range _ _ _) Hi)
              (fun i Hi => Hlegs i (proj1 (in_range _ _ _) Hi))
              (NoDup_range _ _) (Tour.mkDiGraph (Tour.nodes G) []))
    as (g & Hrun & Hedges).
  { intros i e _ []. }
  cbn [Tour.di_edges app] in Hedges.
  assert (Hsrc : map (fun e => fst (fst e)) (Tour.di_edges g) = order).
  { rewrite Hedges, map_map. unfold Tour.leg. cbn [fst].
    apply map_nth_range. }
  assert (Htgt : map (fun e => snd (fst e)) (Tour.di_edges g)
                 = tl order ++ firstn 1 order).
  { rewrite Hedges, map_map. unfold Tour.leg. cbn [fst snd].
    apply map_successor_range. }
  exists g. split; [exact Hrun|]. split; [exact Hedges|].
  split; [|split; [exact Hsrc|split; [exact Htgt|]]].
  - rewrite Hedges, length_map, length_range. lia.
  - intros c Hc. rewrite Hsrc, Htgt. split.
    + now apply NoDup_count_occ'.
    + assert (Hperm : Permutation (tl order ++ firstn 1 order) order).
      { destruct order as [|a r]; [reflexivity|]. cbn.
        symmetry. apply Permutation_cons_append. }
      apply NoDup_count_occ'.
      * apply (Permutation_NoDup (Permutation_sym Hperm) Hnd).
      * apply (Permutation_in _ (Permutation_sym Hperm) Hc).
Qed.

End ClosedRoute.

(** X2 on the route [2, 0, 1] of the complete graph on three cities whose
    edge [(u, v)] weighs [u + v]. *)
Lemma draw_route_is_closed_tour_witness :
  exists g,
    Tour.draw_tsp_solution
      (Tour.mkGraph [0; 1; 2] (fun u v => if u =? v then None else Some (u + v)))
      [2; 0; 1] = (g, inr tt) /\
    Tour.di_edges g = [((2, 0), 2); ((0, 1), 1); ((1, 2), 3)].
Proof.
  destruct (draw_route_is_closed_tour
              (Tour.mkGraph [0; 1; 2]
                 (fun u v => if u =? v then None else Some (u + v)))
              [2; 0; 1]
              (fun i => fst (Tour.leg [2; 0; 1] i) + snd (Tour.leg [2; 0; 1] i)))
    as (g & Hrun & Hedges & _).
  - repeat constructor; simpl; intuition discriminate.
  - intros i Hi. cbn [length Z.of_nat Pos.of_succ_nat Pos.succ] in Hi.
    assert (Hcases : i = 0 \/ i = 1 \/ i = 2) by lia.
    destruct Hcases as [-> | [-> | ->]]; reflexivity.
  - exists g. split; [exact Hrun|]. rewrite Hedges. reflexivity.
Defined.

(** ** The city counts for which the construction completes *)
Section Completion.

(** X4. The construction completes exactly for [n >= 2] and for
    [n <= -2]: it raises for [n = -1], [0] and [1] and for no other
    integer. *)
Theorem construction_completes_iff (n : Z) :
  accepted (ansatz n) <-> (n <= -2 \/ 2 <= n).
Proof.
  split.
  - intros Hacc.
    destruct (Z_le_gt_dec n (-2)) as [|H1]; [now left|].
    destruct (Z_le_gt_dec 2 n) as [|H2]; [now right|].
    exfalso. assert (Hcases : n = -1 \/ n = 0 \/ n = 1) by lia.
    destruct Hcases as [-> | [-> | ->]]; discriminate Hacc.
  - intros [Hn|Hn]; unfold accepted.
    + now rewrite ansatz_negative_accepted.
    + now rewrite ansatz_accepted.
Qed.

End Completion.

(** ** Size of the circuit and use of the parameters *)
Section CircuitSize.
Import Size.

Lemma length_W_gates i q :
  1 <= i -> Z.of_nat (length (W_gates i q)) = 4 * i - 3.
Proof.
  intros Hi. unfold W_gates. cbn [length].
  rewrite length_app, length_map, length_flat_map.
  rewrite (map_ext _ (fun _ => 3%nat)) by reflexivity.
  assert (H : forall l : list Z, list_sum (map (fun _ => 3%nat) l)
                                 = (3 * length l)%nat).
  { induction l as [|a l IH]; simpl; lia. }
  rewrite H, length_range. lia.
Qed.

(** [sum_{i=3..n} (4 i - 3) = 2 n^2 - n - 6] *)
Lemma length_W_stages n (m : nat) :
  Z.of_nat (length (flat_map (fun i => W_gates i (n * (i - 1)))
                             (range 3 (2 + Z.of_nat m + 1))))
  = 2 * (2 + Z.of_nat m) * (2 + Z.of_nat m) - (2 + Z.of_nat m) - 6.
Proof.
  induction m as [|m IH].
  - reflexivity.
  - replace (2 + Z.of_nat (S m) + 1) with ((2 + Z.of_nat m + 1) + 1) by lia.
    rewrite range_snoc by lia. rewrite flat_map_app, length_app.
    cbn [flat_map]. rewrite app_nil_r, Nat2Z.inj_add, IH.
    rewrite length_W_gates by lia. nia.
Qed.

(** Gates that are not the measurement count for one instruction each. *)
Lemma unitary_gates_size nq gs :
  Forall (fun g => is_measure g = false) gs ->
  filter (fun g => negb (is_measure g)) gs = gs /\
  fold_right Z.add 0 (map (instructions nq) gs) = Z.of_nat (length gs).
Proof.
  induction 1 as [|g gs Hg _ [IH1 IH2]]; [split; reflexivity|].
  cbn [filter map fold_right length]. rewrite Hg, IH1, IH2. cbn [negb].
  split; [reflexivity|]. destruct g; try discriminate Hg; cbn [instructions]; lia.
Qed.

Lemma ansatz_gates_unitary n :
  Forall (fun g => is_measure g = false)
         (base_gates n
          ++ flat_map (fun i => W_gates i (n * (i - 1))) (range 3 (n + 1))
          ++ swap_gates n).
Proof.
  apply Forall_forall. intros g Hg.
  rewrite !in_app_iff, in_flat_map in Hg.
  destruct Hg as [Hg|[(i & _ & Hg)|Hg]].
  - cbn in Hg. intuition (subst; reflexivity).
  - apply in_W_gates in Hg as [ -> | (j & _ & [ -> | [ -> | [ -> | -> ]]])];
      reflexivity.
  - apply in_swap_gates in Hg as (k & v & p & _ & _ & _ & ->). reflexivity.
Qed.

(** X5. For every [n >= 2] the construction puts
    [2 n^2 - n + (n - 1) n (2 n - 1) / 6] gates ahead of the measurement:
    7 of the base block, [4 i - 3] per W block ([i = 3 .. n]) and
    [(k - 1)^2] controlled swaps per stage ([k = 3 .. n]). [measure_all()]
    then adds a barrier and [n^2] measurements, so the circuit holds
    [3 n^2 - n + 1 + (n - 1) n (2 n - 1) / 6] instructions: 20 gates and
    30 instructions for [n = 3]. *)
Theorem ansatz_gate_count (n : Z) (Hn : 2 <= n) :
  6 * Z.of_nat (length (unitary_part (fst (ansatz n))))
  = 12 * n * n - 6 * n + (n - 1) * n * (2 * n - 1) /\
  6 * size (fst (ansatz n))
  = 18 * n * n - 6 * n + 6 + (n - 1) * n * (2 * n - 1).
Proof.
  rewrite ansatz_accepted by assumption.
  unfold unitary_part, size. cbn [fst data Ansatz.num_qubits].
  unfold ansatz_gates. rewrite !app_assoc.
  rewrite filter_app, map_app, fold_right_app. cbn [filter map fold_right].
  rewrite <- !app_assoc.
  destruct (unitary_gates_size (n ^ 2) _ (ansatz_gates_unitary n))
    as [Hf Hs].
  rewrite Hf. cbn [is_measure negb instructions]. rewrite app_nil_r.
  assert (Hfold : forall (l : list Z) c,
            fold_right Z.add c l = fold_right Z.add 0 l + c).
  { induction l as [|u l IH]; intros c; cbn [fold_right]; [lia|].
    rewrite (IH c). lia. }
  rewrite Hfold, Hs.
  rewrite !length_app. cbn [length base_gates]. rewrite !Nat2Z.inj_add.
  pose proof (length_W_stages n (Z.to_nat (n - 2))) as HW.
  replace (2 + Z.of_nat (Z.to_nat (n - 2))) with n in HW by lia.
  pose proof (length_swap_gates n Hn) as HS.
  rewrite HW, Z.pow_2_r. split; lia.
Qed.

Lemma ansatz_gate_count_witness :
  length (unitary_part (fst (ansatz 3))) = 20%nat /\
  size (fst (ansatz 3)) = 30.
Proof.
  destruct (ansatz_gate_count 3 ltac:(lia)) as [H1 H2]. split; lia.
Defined.

(** X6. [W_circuit(QC, n, q1n, theta)] on a register and a parameter
    vector that hold its window: for [n <= 1] both loops are empty and it
    appends the flip [X(q1n)] alone; for [n >= 1] it appends [4 n - 3]
    gates, every operand of which lies in the window
    [q1n .. q1n + n - 1] and every parameter index in
    [q1n .. q1n + n - 2]. *)
Theorem W_circuit_window (n q1n nq len : Z)
    (Hq : 0 <= q1n < nq) :
  (n <= 1 -> emits nq (W_circuit n q1n (mkPV len)) [X q1n]) /\
  (1 <= n -> q1n + n <= nq -> q1n + n - 1 <= len ->
   emits nq (W_circuit n q1n (mkPV len)) (W_gates n q1n) /\
   Z.of_nat (length (W_gates n q1n)) = 4 * n - 3 /\
   (forall g q, In g (W_gates n q1n) -> In q (gate_qubits nq g) ->
                q1n <= q <= q1n + n - 1) /\
   (forall i, In i (param_refs (W_gates n q1n)) ->
              q1n <= i <= q1n + n - 2)).
Proof.
  split.
  - intros Hn. unfold W_circuit. rewrite (range_nil (q1n + 1) (q1n + n)) by lia.
    cbn [for_]. intros d. unfold bind.
    rewrite (emits_x nq q1n Hq d). reflexivity.
  - intros Hn Hw Hl. split; [apply emits_W_circuit; lia|].
    split; [now apply length_W_gates|]. split.
    + intros g q Hg Hin.
      apply in_W_gates in Hg as [ -> | (j & Hj & [ -> | [ -> | [ -> | -> ]]])];
        cbn in Hin; intuition lia.
    + intros i Hi. apply in_param_refs in Hi as (e & q & Hg & ->).
      apply in_W_gates in Hg as [Hg | (j & Hj & [Hg | [Hg | [Hg | Hg]]])];
        inversion Hg; subst; cbn; lia.
Qed.

(** X6 on the block the notebook builds for [i = 3] when [n = 5]. *)
Lemma W_circuit_window_witness :
  emits 25 (W_circuit 3 10 (mkPV 25)) (W_gates 3 10) /\
  Z.of_nat (length (W_gates 3 10)) = 4 * 3 - 3.
Proof.
  destruct (W_circuit_window 3 10 25 25 ltac:(lia)) as [_ H].
  destruct (H ltac:(lia) ltac:(lia) ltac:(lia)) as (H1 & H2 & _).
  split; assumption.
Defined.

Lemma param_refs_app (a b : list gate) :
  param_refs (a ++ b) = param_refs a ++ param_refs b.
Proof. apply flat_map_app. Qed.

Lemma param_refs_W_gates i q :
  param_refs (W_gates i q)
  = flat_map (fun p => [p; p]) (map (fun j => j - 1) (range (q + 1) (q + i))).
Proof.
  unfold W_gates. cbn [param_refs flat_map app].
  change (flat_map _ (?a ++ ?b)) with (param_refs (a ++ b)).
  rewrite param_refs_app.
  assert (H1 : forall l,
     param_refs (flat_map (fun j => [RY (Param (j - 1)) j; CZ (j - 1) j;
                                     RY (Neg (Param (j - 1))) j]) l)
     = flat_map (fun p => [p; p]) (map (fun j => j - 1) l)).
  { induction l as [|j l IH]; [reflexivity|].
    cbn [flat_map map]. rewrite param_refs_app, IH. reflexivity. }
  assert (H2 : forall l, param_refs (map (fun j => CX j (j - 1)) l) = []).
  { induction l as [|j l IH]; [reflexivity|]. cbn. exact IH. }
  now rewrite H1, H2, app_nil_r.
Qed.

Lemma param_refs_swap_gates n : param_refs (swap_gates n) = [].
Proof.
  assert (H : forall l, Forall (fun g => is_cswap g = true) l ->
                        param_refs l = []).
  { induction 1 as [|g l Hg _ IH]; [reflexivity|].
    destruct g; try discriminate. cbn. exact IH. }
  apply H. apply Forall_forall. intros g Hg.
  apply in_swap_gates in Hg as (k & v & p & _ & _ & _ & ->). reflexivity.
Qed.

Lemma param_refs_ansatz_gates_eq n :
  param_refs (ansatz_gates n) = flat_map (fun p => [p; p]) (1 :: W_params n).
Proof.
  assert (HW : forall l,
     param_refs (flat_map (fun i => W_gates i (n * (i - 1))) l)
     = flat_map (fun p => [p; p])
         (flat_map (fun i => map (fun j => j - 1)
                      (range (n * (i - 1) + 1) (n * (i - 1) + i))) l)).
  { induction l as [|i l IH]; [reflexivity|].
    cbn [flat_map]. rewrite param_refs_app, flat_map_app, IH.
    now rewrite param_refs_W_gates. }
  unfold ansatz_gates. rewrite !param_refs_app, param_refs_swap_gates, HW.
  change (param_refs (base_gates n)) with [1; 1].
  change (param_refs [MeasureAll]) with (@nil Z).
  now rewrite !app_nil_r.
Qed.

Lemma count_occ_doubled (l : list Z) (x : Z) :
  count_occ Z.eq_dec (flat_map (fun p => [p; p]) l) x
  = (2 * count_occ Z.eq_dec l x)%nat.
Proof.
  induction l as [|a l IH]; [reflexivity|].
  cbn [flat_map app count_occ]. destruct (Z.eq_dec a x); lia.
Qed.

(** X7. For every [n >= 3]: each parameter the circuit refers to is
    referred to exactly twice (by the rotation pair [RY(theta)],
    [RY(-theta)]); the entries [phi[0]] and [phi[n^2 - 1]] are never
    referred to; and [phi[n^2 - 2]] is, so that a vector shorter than
    [n^2 - 1] would not do. *)
Theorem parameters_used_twice (n : Z) (Hn : 3 <= n) :
  let refs := param_refs (data (fst (ansatz n))) in
  (forall i, In i refs -> count_occ Z.eq_dec refs i = 2%nat) /\
  ~ In 0 refs /\
  ~ In (n ^ 2 - 1) refs /\
  In (n ^ 2 - 2) refs /\
  (forall i, In i refs -> i <= n ^ 2 - 2).
Proof.
  cbv zeta. rewrite ansatz_accepted by lia. cbn [fst data].
  rewrite Z.pow_2_r.
  assert (Hin : forall i, In i (param_refs (ansatz_gates n)) ->
                i = 1 \/ exists j, 3 <= j <= n /\
                                   n * (j - 1) <= i <= n * (j - 1) + j - 2).
  { intros i Hi. apply param_refs_ansatz_gates in Hi as [<-|Hi]; [now left|].
    right. now apply in_W_params. }
  split; [|split; [|split; [|split]]].
  - intros i Hi. rewrite param_refs_ansatz_gates_eq, count_occ_doubled.
    apply param_refs_ansatz_gates in Hi.
    rewrite (proj1 (NoDup_count_occ' Z.eq_dec (1 :: W_params n))
               (NoDup_W_params n Hn) i Hi). reflexivity.
  - intros H. apply Hin in H as [H|(j & Hj & H)]; nia.
  - intros H. apply Hin in H as [H|(j & Hj & H)]; nia.
  - apply param_refs_ansatz_gates. right. apply in_W_params.
    exists n. nia.
  - intros i Hi. apply Hin in Hi as [->|(j & Hj & H)]; nia.
Qed.

Lemma parameters_used_twice_witness :
  count_occ Z.eq_dec (param_refs (data (fst (ansatz 3)))) 7 = 2%nat /\
  ~ In 8 (param_refs (data (fst (ansatz 3)))).
Proof.
  destruct (parameters_used_twice 3 ltac:(lia)) as (H1 & _ & H2 & H3 & _).
  split; [apply H1; exact H3|exact H2].
Defined.

End CircuitSize.

(** ** Invariants of the kernel state under the driver *)
Section DriverInvariants.

Context {Circuit Observable EstimatorError : Type}.
Implicit Types (k : Kernel Circuit Observable).

(** What every call of the cost function preserves, a run of the minimizer
    preserves, whatever its outcome. *)
Lemma iterate_invariant {E} (P : Kernel Circuit Observable -> Prop)
    mz (a : Circuit) (h : Observable) (est : Estimator Circuit Observable E) :
  (forall x k, P k -> P (fst (cost_fn x a h est k))) ->
  forall fuel evals x k,
    P k -> P (fst (iterate fuel mz (fun y => cost_fn y a h est) evals x k)).
Proof.
  intros Hcost.
  induction fuel as [|fuel IH]; intros evals x k Hk;
    cbn [iterate]; unfold bind at 1;
    pose proof (Hcost x k Hk) as H1;
    destruct (cost_fn x a h est k) as [k1 [e|v]]; cbn [fst] in *; auto.
  destruct (propose mz (evals ++ [(x, v)])); cbn; auto.
Qed.

Lemma minimize_invariant {E} (P : Kernel Circuit Observable -> Prop)
    mz (a : Circuit) (h : Observable) (est : Estimator Circuit Observable E) :
  (forall x k, P k -> P (fst (cost_fn x a h est k))) ->
  forall x0 maxiter k,
    P k -> P (fst (minimize mz (fun y => cost_fn y a h est) x0 maxiter k)).
Proof.
  intros Hcost x0 maxiter k Hk. unfold minimize, bind.
  pose proof (iterate_invariant P mz a h est Hcost
                (Z.to_nat (maxiter - 1)) [] x0 k Hk) as H1.
  destruct (iterate _ mz _ [] x0 k) as [k1 [e|evals]]; exact H1.
Qed.

Lemma quantum_runs_invariant (P : Kernel Circuit Observable -> Prop)
    (s : Setup Circuit Observable EstimatorError) :
  (forall x a h k, P k -> P (fst (cost_fn x a h (estimator s) k))) ->
  (forall t e k, P k -> P (fst (append_result (EstimatorError := EstimatorError) t e k))) ->
  forall bs k, P k -> P (fst (quantum_runs s bs k)).
Proof.
  intros Hcost Happ. unfold quantum_runs.
  induction bs as [|b bs IH]; intros k Hk; cbn [for_]; [exact Hk|].
  unfold bind at 1.
  assert (H1 : P (fst (quantum_step s b k))).
  { pose proof (iterate_invariant P (minimizer s) (isa_ansatz s)
                  (apply_layout s (ising_hamiltonian (inject_Z b)))
                  (estimator s) (fun x k => Hcost x _ _ k)
                  (Z.to_nat (100 - 1)) [] (initial_point s b) k Hk) as H0.
    open_quantum_step k Hit; cbn [fst] in *; auto.
    unfold ret. apply Happ. exact H0. }
  destruct (quantum_step s b k) as [k1 [e|[]]]; cbn [fst] in *; auto.
Qed.

End DriverInvariants.

(** ** Progress lines and the history plot *)
Section Progress.
Import Trace.

Context {Circuit Observable EstimatorError : Type}.
Implicit Types (k : Kernel Circuit Observable).

Lemma combine_snoc {A B} (l : list A) (l' : list B) a b :
  length l = length l' ->
  combine (l ++ [a]) (l' ++ [b]) = combine l l' ++ [(a, b)].
Proof.
  revert l'. induction l as [|x l IH]; intros [|y l'] Hlen;
    try discriminate; [reflexivity|].
  cbn. f_equal. apply IH. now injection Hlen.
Qed.

Lemma numbered_snoc es v :
  numbered (es ++ [v]) = numbered es ++ [(Z.of_nat (length es) + 1, v)].
Proof.
  unfold numbered. rewrite length_app, Nat2Z.inj_add. cbn [length Z.of_nat].
  replace (Z.of_nat (length es) + Z.pos (Pos.of_succ_nat 0) + 1)
    with (Z.of_nat (length es) + 1 + 1) by lia.
  rewrite range_snoc by lia. apply combine_snoc.
  rewrite length_range. lia.
Qed.

Lemma cost_fn_progress {E} x (a : Circuit) (h : Observable)
    (est : Estimator Circuit Observable E) k :
  progress_consistent k -> progress_consistent (fst (cost_fn x a h est k)).
Proof.
  intros [Hi Hs]. unfold progress_consistent.
  destruct (est (submitted k) (mkPub a [h] [x])) as [e|v] eqn:He.
  - rewrite (cost_fn_raises _ _ _ _ _ _ He). cbn. auto.
  - rewrite (cost_fn_returns _ _ _ _ _ _ He). cbn.
    rewrite numbered_snoc, Hs, Hi, length_app, Nat2Z.inj_add. cbn.
    split; reflexivity.
Qed.

(** X8. Whatever the estimator and the minimizer do, and whether a run
    raises or not, after the optimisation cell of the TSP notebook and
    after the loop of the Ising notebook (both from the kernel state in
    which the dictionary was created): the counter equals the number of
    recorded costs, so the last cell plots [range(iters)] against a
    history of the same size, and the lines printed are exactly
    [(1, cost_1), (2, cost_2), ...], one per recorded cost. *)
Theorem progress_lines_number_the_history
    (mz : Minimizer) (a : Circuit) (h : Observable)
    (est : Estimator Circuit Observable EstimatorError) (x0 : params)
    (s : Setup Circuit Observable EstimatorError) :
  progress_consistent (fst (tsp_run mz a h est x0 kernel_init)) /\
  progress_consistent (fst (quantum_loop s kernel_init)) /\
  (forall k, progress_consistent k ->
     length (range 0 (iters (cost_history_dict k)))
     = length (cost_history (cost_history_dict k)) /\
     map fst (stdout k)
     = range 1 (Z.of_nat (length (cost_history (cost_history_dict k))) + 1) /\
     map snd (stdout k) = cost_history (cost_history_dict k)).
Proof.
  assert (H0 : progress_consistent (@kernel_init Circuit Observable))
    by (split; reflexivity).
  split; [|split].
  - unfold tsp_run, cost_func. apply minimize_invariant; [|exact H0].
    intros x k. apply cost_fn_progress.
  - unfold quantum_loop. apply quantum_runs_invariant; [| |exact H0].
    + intros x a' h' k. apply cost_fn_progress.
    + intros [] e k Hk; exact Hk.
  - intros k [Hi Hs]. rewrite Hi, Hs, length_range. unfold numbered.
    split; [lia|].
    assert (Hlen : length (range 1 (Z.of_nat (length (cost_history (cost_history_dict k))) + 1))
                   = length (cost_history (cost_history_dict k)))
      by (rewrite length_range; lia).
    split.
    + clear -Hlen. revert Hlen.
      generalize (range 1 (Z.of_nat (length (cost_history (cost_history_dict k))) + 1)).
      generalize (cost_history (cost_history_dict k)).
      induction l as [|e l IH]; intros [|i r] Hlen; try discriminate;
        [reflexivity|]. cbn. f_equal. apply IH. now injection Hlen.
    + clear -Hlen. revert Hlen.
      generalize (range 1 (Z.of_nat (length (cost_history (cost_history_dict k))) + 1)).
      generalize (cost_history (cost_history_dict k)).
      induction l as [|e l IH]; intros [|i r] Hlen; try discriminate;
        [reflexivity|]. cbn. f_equal. apply IH. now injection Hlen.
Qed.

End Progress.

(** ** Results recorded by the runs *)
Section RunsAccounting.
Import Trace.

Context {Circuit Observable EstimatorError : Type}.
Implicit Types (k : Kernel Circuit Observable)
  (s : Setup Circuit Observable EstimatorError).

Lemma cost_fn_results {E} x (a : Circuit) (h : Observable)
    (est : Estimator Circuit Observable E) (L L' : list energy) k :
  ground_state_energies_simulator k = L /\
  ground_state_energies_hardware k = L' ->
  ground_state_energies_simulator (fst (cost_fn x a h est k)) = L /\
  ground_state_energies_hardware (fst (cost_fn x a h est k)) = L'.
Proof.
  intros H.
  destruct (est (submitted k) (mkPub a [h] [x])) as [e|v] eqn:He.
  - rewrite (cost_fn_raises _ _ _ _ _ _ He). exact H.
  - rewrite (cost_fn_returns _ _ _ _ _ _ He). exact H.
Qed.

(** A run of the loop body appends its result to the list of the run
    target when it completes, and touches neither list when it raises. *)
Lemma quantum_step_results s b k :
  results_of (other_target (run_target s)) (fst (quantum_step s b k))
  = results_of (other_target (run_target s)) k /\
  match snd (quantum_step s b k) with
  | inr _ => exists e,
      results_of (run_target s) (fst (quantum_step s b k))
      = results_of (run_target s) k ++ [e]
  | inl _ =>
      results_of (run_target s) (fst (quantum_step s b k))
      = results_of (run_target s) k
  end.
Proof.
  pose proof (iterate_invariant
                (fun k' => ground_state_energies_simulator k'
                           = ground_state_energies_simulator k /\
                           ground_state_energies_hardware k'
                           = ground_state_energies_hardware k)
                (minimizer s) (isa_ansatz s)
                (apply_layout s (ising_hamiltonian (inject_Z b)))
                (estimator s)
                (fun x k' => cost_fn_results x _ _ _ _ _ k')
                (Z.to_nat (100 - 1)) [] (initial_point s b) k
                (conj eq_refl eq_refl)) as [H1 H2].
  open_quantum_step k Hit; cbn [fst snd] in *.
  - destruct (run_target s); cbn; auto.
  - unfold ret, append_result, modify.
    destruct (run_target s); cbn; rewrite ?H1, ?H2; eauto.
Qed.

Lemma quantum_runs_results s bs :
  forall k, exists rs,
    results_of (run_target s) (fst (quantum_runs s bs k))
    = results_of (run_target s) k ++ rs /\
    results_of (other_target (run_target s)) (fst (quantum_runs s bs k))
    = results_of (other_target (run_target s)) k /\
    match snd (quantum_runs s bs k) with
    | inr _ => length rs = length bs
    | inl _ => (length rs < length bs)%nat
    end.
Proof.
  unfold quantum_runs.
  induction bs as [|b bs IH]; intros k; cbn [for_].
  - exists []. cbn. rewrite app_nil_r. auto.
  - unfold bind.
    destruct (quantum_step_results s b k) as [Ho Hr].
    destruct (quantum_step s b k) as [k1 [e|[]]]; cbn [fst snd] in *.
    + exists []. rewrite app_nil_r. cbn [length]. repeat split; auto; lia.
    + destruct Hr as (e1 & Hr).
      destruct (IH k1) as (rs & H1 & H2 & H3).
      exists (e1 :: rs). rewrite H1, H2, Hr, Ho, <- app_assoc.
      repeat split.
      destruct (snd (for_ bs (quantum_step s) k1)); cbn [length]; lia.
Qed.

(** X10. Starting from empty result lists, the loop of the Ising notebook
    appends only to the list of its run target and never touches the other
    one; a loop that completes has recorded exactly one result per field
    value ([len(b_list) = 10]); a loop that raises keeps the results of the
    runs completed before, fewer than 10. *)
Theorem results_recorded_per_field_value s :
  let r := quantum_loop s kernel_init in
  results_of (other_target (run_target s)) (fst r) = [] /\
  match snd r with
  | inr _ => length (results_of (run_target s) (fst r)) = length b_list
  | inl _ => (length (results_of (run_target s) (fst r)) < length b_list)%nat
  end.
Proof.
  cbv zeta. unfold quantum_loop.
  destruct (quantum_runs_results s (range 0 (len b_list)) kernel_init)
    as (rs & H1 & H2 & H3).
  rewrite H1, H2.
  replace (results_of (run_target s) (@kernel_init Circuit Observable))
    with (@nil energy) by (destruct (run_target s); reflexivity).
  split; [destruct (run_target s); reflexivity|].
  cbn [app]. rewrite length_range in H3. exact H3.
Qed.

(** X11. With the energy levels of the classical cell and the kernel
    state left by one execution of the quantum loop from empty result
    lists, the results plot is drawn exactly when the run target is the
    simulator and the loop completed, and then it shows the levels and one
    series of 10 points. With the run target set to hardware the
    unconditional scatter of the empty simulator list against [b_list] is
    refused, so the hardware results are not drawn. *)
Theorem results_plot_needs_completed_simulator_loop
    (Spectrum : Type) (eig : Matrix -> Spectrum) s :
  exists levels,
    classical_loop Spectrum eig = Some levels /\
    length levels = length b_list /\
    let r := quantum_loop s kernel_init in
    ((exists drawn, plot_cell levels (fst r) = inr drawn) <->
     (run_target s = simulator /\ snd r = inr tt)) /\
    (run_target s = simulator -> snd r = inr tt ->
     plot_cell levels (fst r)
     = inr [Lines b_list levels;
            Points b_list (ground_state_energies_simulator (fst r))]) /\
    (run_target s = hardware -> plot_cell levels (fst r) = inl ValueError).
Proof.
  eexists. split.
  { unfold classical_loop. rewrite classical_runs_spec. reflexivity. }
  split; [cbn [app]; now rewrite length_map, length_range|].
  cbv zeta.
  assert (Hloop :
    results_of (other_target (run_target s)) (fst (quantum_loop s kernel_init))
    = [] /\
    match snd (quantum_loop s kernel_init) with
    | inr _ => length (results_of (run_target s)
                         (fst (quantum_loop s kernel_init))) = length b_list
    | inl _ => (length (results_of (run_target s)
                          (fst (quantum_loop s kernel_init)))
                < length b_list)%nat
    end).
  { unfold quantum_loop.
    destruct (quantum_runs_results s (range 0 (len b_list)) kernel_init)
      as (rs & H1 & H2 & H3).
    rewrite H1, H2.
    replace (results_of (run_target s) (@kernel_init Circuit Observable))
      with (@nil energy) by (destruct (run_target s); reflexivity).
    split; [destruct (run_target s); reflexivity|].
    cbn [app]. rewrite length_range in H3. exact H3. }
  destruct Hloop as [Hother Hres].
  set (levels := [] ++ map _ _).
  assert (Hlv : same_size b_list levels = true) by reflexivity.
  unfold plot_cell. rewrite Hlv. cbn [negb].
  destruct (run_target s) eqn:Ht; cbn [other_target results_of] in *.
  - rewrite Hother. cbn [len length Z.of_nat Z.ltb Z.compare].
    destruct (snd (quantum_loop s kernel_init)) as [e|[]] eqn:Hsnd.
    + assert (Hsz : same_size b_list
                      (ground_state_energies_simulator
                         (fst (quantum_loop s kernel_init))) = false).
      { unfold same_size. apply Nat.eqb_neq. lia. }
      rewrite Hsz. cbn [negb].
      split; [|split]; try discriminate.
      split; [intros [? ?]; discriminate|intros [_ ?]; discriminate].
    + assert (Hsz : same_size b_list
                      (ground_state_energies_simulator
                         (fst (quantum_loop s kernel_init))) = true).
      { unfold same_size. apply Nat.eqb_eq. lia. }
      rewrite Hsz. cbn [negb].
      split; [|split]; try discriminate; [|reflexivity].
      split; [auto|intros _; eauto].
  - rewrite Hother. cbn.
    split; [|split]; try discriminate; [|reflexivity].
    split; [intros [? ?]; discriminate|intros [? _]; discriminate].
Qed.

End RunsAccounting.

(** ** The Hamiltonian for every coupling and field *)
Section HamiltonianFacts.
Import Tfim.
Local Open Scope Q_scope.





(** The matrix of the Hamiltonian, entry by entry. *)
Lemma Hamiltonian_matrix (J b : Q) H :
  Hamiltonian J b observables = Some H ->
  mat_eq (to_matrix H) (tfim_matrix J b).
Proof.
  intros [= <-]. unfold op_add, op_scale, observables.
  destruct (Qeq_bool (- J) 0) eqn:EJ; destruct (Qeq_bool b 0) eqn:Eb;
    try apply Qeq_bool_iff in EJ; try apply Qeq_bool_iff in Eb;
    cbn; repeat constructor; lra.
Qed.

(** [m v] only depends on the entries of [m] up to equality of
    rationals. *)
Lemma dot_mat_eq (r r' v : list Q) :
  Forall2 Qeq r r' -> dot r v == dot r' v.
Proof.
  intros HF. revert v. induction HF as [|u u' r r' Hu _ IH]; intros v.
  - reflexivity.
  - destruct v as [|c v]; [reflexivity|].
    unfold dot in *. cbn. rewrite Hu, (IH v). reflexivity.
Qed.

Lemma mat_vec_mat_eq (m m' : Matrix) (v : list Q) :
  mat_eq m m' -> Forall2 Qeq (mat_vec m v) (mat_vec m' v).
Proof.
  unfold mat_eq, mat_vec. induction 1 as [|r r' m m' Hr _ IH]; cbn.
  - constructor.
  - constructor; [now apply dot_mat_eq|exact IH].
Qed.

Lemma Forall2_Qeq_trans (u v w : list Q) :
  Forall2 Qeq u v -> Forall2 Qeq v w -> Forall2 Qeq u w.
Proof.
  intros Huv. revert w. induction Huv as [|a b0 u v Hab _ IH]; intros w Hvw.
  - inversion Hvw. constructor.
  - inversion Hvw as [|? c ? w' Hbc Hvw']; subst.
    constructor; [now rewrite Hab|now apply IH].
Qed.

Lemma Forall2_Qeq_sym (u v : list Q) :
  Forall2 Qeq u v -> Forall2 Qeq v u.
Proof.
  induction 1 as [|a b0 u v Hab _ IH]; constructor;
    [now symmetry|exact IH].
Qed.

(** The four eigen-equations of the Hamiltonian's matrix. *)
Lemma eigen_equations (J b lam a x y d : Q) H :
  Hamiltonian J b observables = Some H ->
  Forall2 Qeq (mat_vec (to_matrix H) [a; x; y; d])
              (map (Qmult lam) [a; x; y; d]) <->
  (- J * a + b * x + b * y == lam * a /\
   b * a + J * x + b * d == lam * x /\
   b * a + J * y + b * d == lam * y /\
   b * x + b * y - J * d == lam * d).
Proof.
  intros HH. apply Hamiltonian_matrix in HH.
  pose proof (mat_vec_mat_eq _ _ [a; x; y; d] HH) as Hmv.
  assert (Ht : Forall2 Qeq (mat_vec (tfim_matrix J b) [a; x; y; d])
                           (map (Qmult lam) [a; x; y; d]) <->
               (- J * a + b * x + b * y == lam * a /\
                b * a + J * x + b * d == lam * x /\
                b * a + J * y + b * d == lam * y /\
                b * x + b * y - J * d == lam * d)).
  { cbn. split.
    - intros HF.
      inversion HF as [|? ? ? ? E0 HF1]; subst; clear HF.
      inversion HF1 as [|? ? ? ? E1 HF2]; subst; clear HF1.
      inversion HF2 as [|? ? ? ? E2 HF3]; subst; clear HF2.
      inversion HF3 as [|? ? ? ? E3 _]; subst; clear HF3.
      split; [|split; [|split]];
        [rewrite <- E0|rewrite <- E1|rewrite <- E2|rewrite <- E3]; ring.
    - intros (E0 & E1 & E2 & E3).
      constructor; [rewrite <- E0; ring|].
      constructor; [rewrite <- E1; ring|].
      constructor; [rewrite <- E2; ring|].
      constructor; [rewrite <- E3; ring|constructor]. }
  rewrite <- Ht. split; intros HF.
  - eapply Forall2_Qeq_trans; [apply Forall2_Qeq_sym; exact Hmv|exact HF].
  - eapply Forall2_Qeq_trans; [exact Hmv|exact HF].
Qed.

Lemma Qmult_zero_cases (u v : Q) : u * v == 0 -> u == 0 \/ v == 0.
Proof. apply Qmult_integral. Qed.

(** X13. The matrix of [Hamiltonian(J, b, observables)] on the notebook's
    observables [ZZ, IX, XI] is
    [[-J, b, b, 0], [b, J, 0, b], [b, 0, J, b], [0, b, b, -J]], and a
    rational [lam] is an eigenvalue of it (with a rational eigenvector)
    exactly when [(lam - J) (lam + J) (lam^2 - J^2 - 4 b^2) = 0]: the
    energy levels the classical cell computes are [J], [-J] and the two
    square roots of [J^2 + 4 b^2]. *)
Theorem Hamiltonian_spectrum (J b lam : Q) H
    (HH : Hamiltonian J b observables = Some H) :
  mat_eq (to_matrix H) (tfim_matrix J b) /\
  ((exists a x y d, eigenvector (to_matrix H) lam [a; x; y; d]) <->
   (lam - J) * (lam + J) * (lam * lam - J * J - 4 * b * b) == 0).
Proof.
  split.
  { exact (Hamiltonian_matrix J b H HH). }
  unfold eigenvector. split.
  - intros (a & x & y & d & Heig & Hnz).
    apply (eigen_equations J b lam a x y d H HH) in Heig
      as (E0 & E1 & E2 & E3).
    assert (W : (lam + J) * (a - d) == 0).
    { transitivity (lam * a - lam * d + J * a - J * d); [ring|].
      rewrite <- E0, <- E3. ring. }
    assert (T : (lam - J) * (x - y) == 0).
    { transitivity (lam * x - lam * y - J * x + J * y); [ring|].
      rewrite <- E1, <- E2. ring. }
    assert (U : (lam + J) * (a + d) == 2 * b * (x + y)).
    { transitivity (lam * a + lam * d + J * a + J * d); [ring|].
      rewrite <- E0, <- E3. ring. }
    assert (V : (lam - J) * (x + y) == 2 * b * (a + d)).
    { transitivity (lam * x + lam * y - J * x - J * y); [ring|].
      rewrite <- E1, <- E2. ring. }
    apply Qmult_zero_cases in W as [W|W]; [rewrite W; ring|].
    apply Qmult_zero_cases in T as [T|T]; [rewrite T; ring|].
    assert (KA : (lam * lam - J * J - 4 * b * b) * (a + d) == 0).
    { transitivity ((lam - J) * ((lam + J) * (a + d))
                    - 2 * b * (2 * b * (a + d))); [ring|].
      rewrite U, <- V. ring. }
    assert (KX : (lam * lam - J * J - 4 * b * b) * (x + y) == 0).
    { transitivity ((lam + J) * ((lam - J) * (x + y))
                    - 2 * b * (2 * b * (x + y))); [ring|].
      rewrite V, <- U. ring. }
    apply Qmult_zero_cases in KA as [KA|KA]; [rewrite KA; ring|].
    apply Qmult_zero_cases in KX as [KX|KX]; [rewrite KX; ring|].
    exfalso. apply Hnz. repeat constructor; lra.
  - intros Hchar.
    assert (Hpm : (lam - J) * (lam + J) == 0 ->
                  exists a x y d,
                    Forall2 Qeq (mat_vec (to_matrix H) [a; x; y; d])
                                (map (Qmult lam) [a; x; y; d]) /\
                    ~ Forall (fun c => c == 0) [a; x; y; d]).
    { intros Hz. apply Qmult_zero_cases in Hz as [Hz|Hz].
      - exists 0, 1, (-1), 0. split.
        + apply (eigen_equations J b lam 0 1 (-1) 0 H HH).
          split; [|split; [|split]]; lra.
        + intros HF. inversion HF as [|? ? _ HF1]; subst.
          inversion HF1 as [|? ? H1 _]; subst. discriminate H1.
      - exists 1, 0, 0, (-1). split.
        + apply (eigen_equations J b lam 1 0 0 (-1) H HH).
          split; [|split; [|split]]; lra.
        + intros HF. inversion HF as [|? ? H1 _]; subst. discriminate H1. }
    apply Qmult_zero_cases in Hchar as [Hz|HK]; [now apply Hpm|].
    destruct (Qeq_dec b 0) as [Hb|Hb].
    + apply Hpm. transitivity (lam * lam - J * J - 4 * b * b + 4 * b * b);
        [ring|]. rewrite HK, Hb. ring.
    + exists (2 * b), (J + lam), (J + lam), (2 * b). split.
      * apply (eigen_equations J b lam (2 * b) (J + lam) (J + lam) (2 * b) H HH).
        split; [ring|]. split; [|split; [|ring]].
        -- transitivity (lam * (J + lam) - (lam * lam - J * J - 4 * b * b));
             [ring|]. rewrite HK. ring.
        -- transitivity (lam * (J + lam) - (lam * lam - J * J - 4 * b * b));
             [ring|]. rewrite HK. ring.
      * intros HF. inversion HF as [|? ? H1 _]; subst. apply Hb. lra.
Qed.

(** X13 at [J = 1], [b = 2]: [J] itself is an energy level. *)
Lemma Hamiltonian_spectrum_witness :
  exists a x y d,
    eigenvector
      (to_matrix [([PZ; PZ], - 1 * 1); ([PI; PX], 2 * 1); ([PX; PI], 2 * 1)])
      1 [a; x; y; d].
Proof.
  apply (Hamiltonian_spectrum 1 2 1 _ eq_refl). reflexivity.
Defined.

End HamiltonianFacts.

(** ** The set-up cells *)
Section CellFacts.
Import Cells.

Lemma comprehension_raises {A B} (f : A -> exn + B) (e : exn) (l : list A) :
  (forall a, f a = inl e) -> l <> [] -> comprehension f l = inl e.
Proof.
  intros Hf Hl. destruct l as [|a l]; [contradiction|].
  cbn. now rewrite Hf.
Qed.

(** X14. The colour cell gives exactly [n] colours, all different, for
    [0 <= n <= 8]; for every [n > 8] it raises [NameError], because the
    extra colours are drawn with [random], a name the notebook never
    binds. *)
Theorem colors_up_to_eight_cities (n : Z) :
  (0 <= n <= 8 ->
   exists cs, colors n = inr cs /\
              Z.of_nat (length cs) = n /\
              NoDup cs /\
              cs = firstn (Z.to_nat n) base_colors) /\
  (8 < n -> colors n = inl (NameError "random"%string)).
Proof.
  split.
  - intros Hn. unfold colors.
    change (Z.of_nat (length base_colors)) with 8.
    destruct (Z.ltb_spec 8 n); [lia|].
    unfold slice_to. destruct (Z.leb_spec 0 n); [|lia].
    eexists. split; [reflexivity|]. split; [|split; [|reflexivity]].
    + rewrite length_firstn. change (length base_colors) with 8%nat. lia.
    + assert (Hcases : n = 0 \/ n = 1 \/ n = 2 \/ n = 3 \/ n = 4 \/ n = 5 \/
                       n = 6 \/ n = 7 \/ n = 8) by lia.
      repeat (destruct Hcases as [-> | Hcases]); try subst n;
        cbn; repeat constructor; cbn; intuition discriminate.
  - intros Hn. unfold colors.
    change (Z.of_nat (length base_colors)) with 8.
    destruct (Z.ltb_spec 8 n); [|lia].
    rewrite (comprehension_raises random_color (NameError "random"%string));
      [reflexivity|reflexivity|].
    intros Hnil. apply (f_equal (@length Z)) in Hnil.
    rewrite length_range in Hnil. cbn in Hnil. lia.
Qed.

Lemma colors_up_to_eight_cities_witness :
  colors 5 = inr ["red"; "blue"; "green"; "orange"; "purple"]%string /\
  colors 9 = inl (NameError "random"%string).
Proof.
  destruct (colors_up_to_eight_cities 5) as [H5 _].
  destruct (colors_up_to_eight_cities 9) as [_ H9].
  split.
  - destruct (H5 ltac:(lia)) as (cs & Hc & _ & _ & ->). exact Hc.
  - apply H9. lia.
Defined.

(** X15. Backend selection. The simulator is selected whatever the
    channel and whether or not [service] is bound, and announced as a quick
    simulation. Every other run target needs [service], which the channel
    cell binds only for the channels [ibm_quantum] and [ibm_cloud] and only
    when the constructor returns: while it is unbound the selection cell
    raises [NameError] and prints nothing. With [service] bound,
    [least_busy] asks for the least busy device and every other string,
    the name of another device included, asks for [ibm_sherbrooke]; the
    cell raises what the service refuses the request with, and otherwise
    binds that backend and prints the line of the plan, which for a
    service bound by the channel cell is a cost warning and never the
    simulation line. *)
Theorem backend_selection {ServiceError : Type}
    (connect : String.string -> ServiceError + Service ServiceError)
    (channel run_target : String.string) :
  let quick :=
    "-- This run will be a quick simulation using Qiskit Aer"%string in
  let service := service_after (channel_cell connect channel) in
  (forall sv, service = Some sv <->
     (channel = "ibm_quantum"%string \/ channel = "ibm_cloud"%string) /\
     connect channel = inr sv) /\
  (run_target = "simulator"%string ->
   forall any_service : option (Service ServiceError),
     selection_cell any_service channel run_target
     = inr (AerSimulator, Some quick)) /\
  (run_target <> "simulator"%string ->
   let wanted := if String.eqb run_target "least_busy"%string then LeastBusy
                 else Named "ibm_sherbrooke"%string in
   selection_cell (ServiceError := ServiceError) None channel run_target
   = inl (Unbound (NameError "service"%string)) /\
   (service = None ->
    selection_cell service channel run_target
    = inl (Unbound (NameError "service"%string))) /\
   (forall sv : Service ServiceError,
      selection_cell (Some sv) channel run_target
      = match (match wanted with
               | AerSimulator => None
               | LeastBusy => least_busy sv
               | Named name => named sv name
               end) with
        | Some e => inl (Refused e)
        | None => inr (wanted, plan_message channel run_target)
        end) /\
   (forall sv b line,
      service = Some sv ->
      selection_cell service channel run_target = inr (b, line) ->
      b = wanted /\
      exists warning, line = Some warning /\ warning <> quick)).
Proof.
  intros quick service. subst quick service.
  assert (Hbound : forall sv,
    service_after (channel_cell connect channel) = Some sv <->
    (channel = "ibm_quantum"%string \/ channel = "ibm_cloud"%string) /\
    connect channel = inr sv).
  { intros sv. unfold channel_cell, service_after.
    destruct (String.eqb_spec channel "ibm_quantum"%string) as [Hq|Hq];
      [|destruct (String.eqb_spec channel "ibm_cloud"%string) as [Hc|Hc]].
    - destruct (connect channel) as [e|sv']; split.
      + discriminate.
      + intros [_ [=]].
      + intros [= ->]. auto.
      + intros [_ [= ->]]. reflexivity.
    - destruct (connect channel) as [e|sv']; split.
      + discriminate.
      + intros [_ [=]].
      + intros [= ->]. auto.
      + intros [_ [= ->]]. reflexivity.
    - split; [discriminate|]. intros [[H|H] _]; contradiction. }
  split; [exact Hbound|]. split.
  - intros -> any_service. unfold selection_cell, plan_message. cbn.
    destruct (String.eqb channel "ibm_quantum"%string),
             (String.eqb channel "ibm_cloud"%string); reflexivity.
  - intros Hsim. cbv zeta. apply String.eqb_neq in Hsim.
    assert (Hsel : forall sv' : option (Service ServiceError),
      selection_cell sv' channel run_target
      = match request sv'
                (if String.eqb run_target "least_busy"%string then LeastBusy
                 else Named "ibm_sherbrooke"%string) with
        | inl e => inl e
        | inr b0 => inr (b0, plan_message channel run_target)
        end).
    { intros sv'. unfold selection_cell, select_backend. rewrite Hsim.
      destruct (String.eqb run_target "least_busy"%string); reflexivity. }
    split; [|split; [|split]].
    + rewrite Hsel. destruct (String.eqb run_target "least_busy"%string);
        reflexivity.
    + intros ->. rewrite Hsel.
      destruct (String.eqb run_target "least_busy"%string); reflexivity.
    + intros sv. rewrite Hsel. unfold request.
      destruct (String.eqb run_target "least_busy"%string);
        [destruct (least_busy sv)|destruct (named sv _)]; reflexivity.
    + intros sv b line Hsv Hcell. rewrite Hsv, Hsel in Hcell.
      apply Hbound in Hsv as [Hch _].
      assert (Hb : b = (if String.eqb run_target "least_busy"%string
                        then LeastBusy else Named "ibm_sherbrooke"%string) /\
                   line = plan_message channel run_target).
      { destruct (request _ _) as [e|b'] eqn:Hr; [discriminate|].
        injection Hcell as <- <-. split; [|reflexivity].
        unfold request in Hr.
        destruct (String.eqb run_target "least_busy"%string);
          [destruct (least_busy sv)|destruct (named sv _)];
          congruence. }
      destruct Hb as [-> ->]. split; [reflexivity|].
      unfold plan_message. rewrite Hsim. cbn [negb].
      destruct Hch as [-> | ->]; cbn;
        eexists; (split; [reflexivity|discriminate]).
Qed.

(** X15 with the constructor refusing the empty token, and with an
    account that serves every request. *)
Lemma backend_selection_witness :
  let refused := fun _ : String.string => inl 401 in
  let served := fun _ : String.string =>
    inr (mkService (ServiceError := Z) None (fun _ => None)) in
  selection_cell (service_after (channel_cell refused "ibm_cloud"%string))
    "ibm_cloud"%string "least_busy"%string
  = inl (Unbound (NameError "service"%string)) /\
  selection_cell (service_after (channel_cell served "ibm_cloud"%string))
    "ibm_cloud"%string "ibm_brisbane"%string
  = inr (Named "ibm_sherbrooke"%string,
         Some "-- WARNING: This run may consume several credits of your Paygo plan: ~1.6$/second"%string).
Proof.
  intros refused served. split.
  - destruct (backend_selection refused "ibm_cloud"%string
                "least_busy"%string) as (_ & _ & H).
    destruct (H ltac:(discriminate)) as (_ & H' & _).
    apply H'. reflexivity.
  - destruct (backend_selection served "ibm_cloud"%string
                "ibm_brisbane"%string) as (_ & _ & H).
    destruct (H ltac:(discriminate)) as (_ & _ & H' & _).
    exact (H' (mkService None (fun _ => None))).
Defined.

(** X16. Whatever backend the selection cell yields, the TSP notebook
    transpiles with [transpile(ansatz, backend=backend)]: its test
    [backend == 'simulator'] compares the backend object with a string and
    is never true, so its preset pass manager is never used. The Ising
    notebook tests [run_target] instead and uses the preset pass manager
    (optimisation level 3) exactly for the simulator. *)
Theorem transpilation_paths {ServiceError : Type}
    (service : option (Service ServiceError))
    (run_target : String.string) (b : backend)
    (Hsel : select_backend service run_target = inr b) :
  tsp_transpile b = Transpile b /\
  (ising_transpile run_target b = PresetPassManager b 3 <->
   run_target = "simulator"%string) /\
  (run_target <> "simulator"%string ->
   ising_transpile run_target b = Transpile b) /\
  (run_target = "simulator"%string -> b = AerSimulator).
Proof.
  split; [reflexivity|].
  unfold ising_transpile, py_eq.
  destruct (String.eqb_spec run_target "simulator"%string) as [->|Hne].
  - split; [tauto|]. split; [tauto|].
    intros _. unfold select_backend in Hsel. cbn in Hsel. congruence.
  - split; [split; [discriminate|contradiction]|]. split; [reflexivity|].
    contradiction.
Qed.

Lemma transpilation_paths_witness :
  tsp_transpile AerSimulator = Transpile AerSimulator /\
  ising_transpile "simulator"%string AerSimulator
  = PresetPassManager AerSimulator 3.
Proof.
  destruct (transpilation_paths (ServiceError := unit) None
              "simulator"%string AerSimulator eq_refl)
    as (H1 & H2 & _).
  split; [exact H1|]. apply H2. reflexivity.
Defined.

End CellFacts.
